(** * Criteria-tree combination and indexing

    A shallow embedding of the two TypeScript units of the repository:

    - [QueryTree]: the [QueryTreeContainer] class, which classifies the
      nodes of a criteria tree into terms, groups, parent terms and the
      nested-term list;
    - [Cdc]: [getDataCollectorQuery] with [walkTree], [buildQueryTree] and
      [addOneToMultiMap], which combine the root queries of all answers of a
      project and build the term/answer indexes.

    JavaScript truthiness is written out where the source relies on it: a
    string is truthy when it is not empty, an object reference when it is
    present, a numeric enum member when it is not the member numbered 0. *)

From stdpp Require Import gmap strings list fin_maps.

(** Truthiness of a JavaScript string. *)
Definition truthy (s : string) : bool := negb (String.eqb s "").

Lemma truthy_true_iff s : truthy s = true ↔ s ≠ "".
Proof.
  unfold truthy. rewrite negb_true_iff.
  destruct (String.eqb_spec s ""); split; congruence.
Qed.

Lemma truthy_false_iff s : truthy s = false ↔ s = "".
Proof.
  unfold truthy. rewrite negb_false_iff.
  destruct (String.eqb_spec s ""); split; congruence.
Qed.

(* ================================================================== *)
(** * The query tree container *)
(* ================================================================== *)

Module QueryTree.

(** [interface Query].  The container reads [id], [category], [disabled]
    and [groups] only; the enclosing node is handed down by [indexTree] as
    its second argument, the [parent] back-reference of a node is never
    read.  [category] and [groups] are optional fields. *)
#[local] Unset Elimination Schemes.
Inductive Query : Type := mkQuery {
  id : string;
  category : option string;
  disabled : bool;
  groups : option (list Query)
}.
#[local] Set Elimination Schemes.

(** [node.category] in a condition: present and not the empty string. *)
Definition hasCategory (node : Query) : bool :=
  match category node with
  | Some c => truthy c
  | None => false
  end.

(** The four private arrays of a [QueryTreeContainer] instance. *)
Record QueryTreeContainer : Type := mkContainer {
  cgroups : list Query;
  terms : list Query;
  parentTerms : list Query;
  termsByNestedTerm : list Query
}.

(** Field initialisers of the class: four empty arrays. *)
Definition emptyContainer : QueryTreeContainer :=
  mkContainer [] [] [] [].

Definition push_groups (n : Query) (c : QueryTreeContainer) :=
  mkContainer (cgroups c ++ [n]) (terms c) (parentTerms c) (termsByNestedTerm c).
Definition push_terms (n : Query) (c : QueryTreeContainer) :=
  mkContainer (cgroups c) (terms c ++ [n]) (parentTerms c) (termsByNestedTerm c).
Definition push_parentTerms (n : Query) (c : QueryTreeContainer) :=
  mkContainer (cgroups c) (terms c) (parentTerms c ++ [n]) (termsByNestedTerm c).
Definition push_termsByNestedTerm (n : Query) (c : QueryTreeContainer) :=
  mkContainer (cgroups c) (terms c) (parentTerms c) (termsByNestedTerm c ++ [n]).

(** [parentNode?.id && parentNode.category] *)
Definition parentIsTerm (parentNode : option Query) : bool :=
  match parentNode with
  | Some p => truthy (id p) && hasCategory p
  | None => false
  end.

(** [indexTree(node, parentNode)] for a defined [node]; the container is
    threaded through as the state the method pushes to. *)
Fixpoint indexTree (node : Query) (parentNode : option Query)
    (c : QueryTreeContainer) : QueryTreeContainer :=
  let c1 :=
    if truthy (id node) then
      if hasCategory node then
        let c0 := push_terms node c in
        if parentIsTerm parentNode then
          match parentNode with
          | Some p => push_termsByNestedTerm p c0
          | None => c0
          end
        else if negb (disabled node) then push_parentTerms node c0
        else c0
      else push_groups node c
    else c in
  match groups node with
  | Some gs =>
      (fix loop (gs : list Query) (c : QueryTreeContainer) :=
         match gs with
         | [] => c
         | group :: rest => loop rest (indexTree group (Some node) c)
         end) gs c1
  | None => c1
  end.

(** [constructor(rootNode?)]: [indexTree] returns at once on an undefined
    node. *)
Definition newQueryTreeContainer (rootNode : option Query) : QueryTreeContainer :=
  match rootNode with
  | Some node => indexTree node None emptyContainer
  | None => emptyContainer
  end.

Definition getAllTerms (c : QueryTreeContainer) : list Query := terms c.
Definition getParentTerms (c : QueryTreeContainer) : list Query := parentTerms c.

Definition getTerm (c : QueryTreeContainer) (termId : string) : option Query :=
  find (fun t => String.eqb (id t) termId) (terms c).

Definition getGroup (c : QueryTreeContainer) (groupId : string) : option Query :=
  find (fun t => String.eqb (id t) groupId) (cgroups c).

Definition getParentTerm (c : QueryTreeContainer) (termId : string) : option Query :=
  find (fun t => String.eqb (id t) termId) (termsByNestedTerm c).

(** ** Specification vocabulary *)

(** Children of a node; an absent [groups] has none. *)
Definition children (node : Query) : list Query :=
  match groups node with
  | Some gs => gs
  | None => []
  end.

(** The visits of the traversal, in order: each node with the node it was
    reached from. *)
Fixpoint occurrences (node : Query) (parentNode : option Query)
    : list (Query * option Query) :=
  (node, parentNode) ::
  match groups node with
  | Some gs =>
      (fix loop (gs : list Query) :=
         match gs with
         | [] => []
         | group :: rest => occurrences group (Some node) ++ loop rest
         end) gs
  | None => []
  end.

(** What one visit pushes. *)
Definition classify (node : Query) (parentNode : option Query)
    (c : QueryTreeContainer) : QueryTreeContainer :=
  if truthy (id node) then
    if hasCategory node then
      let c0 := push_terms node c in
      if parentIsTerm parentNode then
        match parentNode with
        | Some p => push_termsByNestedTerm p c0
        | None => c0
        end
      else if negb (disabled node) then push_parentTerms node c0
      else c0
    else push_groups node c
  else c.

Definition isTermOcc (o : Query * option Query) : bool :=
  truthy (id o.1) && hasCategory o.1.
Definition isGroupOcc (o : Query * option Query) : bool :=
  truthy (id o.1) && negb (hasCategory o.1).
Definition isParentTermOcc (o : Query * option Query) : bool :=
  isTermOcc o && negb (parentIsTerm o.2) && negb (disabled o.1).
Definition isNestedOcc (o : Query * option Query) : bool :=
  isTermOcc o && parentIsTerm o.2.

(** The parents pushed by the nested visits. *)
Definition nestedParents (os : list (Query * option Query)) : list Query :=
  omap (fun o => if isNestedOcc o then o.2 else None) os.

(** [n] is a node of the tree under [root]. *)
Inductive subnode : Query → Query → Prop :=
  | subnode_refl n : subnode n n
  | subnode_child n g root : In g (children root) → subnode n g → subnode n root.

(** Induction over a tree whose children sit in an optional list. *)
Section QueryInduction.
Variable P : Query → Prop.
Hypothesis step : ∀ i cat d gs,
  (∀ l, gs = Some l → Forall P l) → P (mkQuery i cat d gs).

Lemma Query_tree_ind (q : Query) : P q.
Proof.
  revert q. fix IH 1. intros [i cat d [l|]].
  - assert (Forall P l) as Hl.
    { induction l as [|g rest IHrest]; constructor; [apply IH | exact IHrest]. }
    apply step. intros l' [= <-]. exact Hl.
  - apply step. intros l' [=].
Qed.
End QueryInduction.

(** ** The container as a function of the visit list *)

Definition capp (c1 c2 : QueryTreeContainer) : QueryTreeContainer :=
  mkContainer (cgroups c1 ++ cgroups c2) (terms c1 ++ terms c2)
    (parentTerms c1 ++ parentTerms c2)
    (termsByNestedTerm c1 ++ termsByNestedTerm c2).

Definition summary (os : list (Query * option Query)) : QueryTreeContainer :=
  mkContainer (map fst (List.filter isGroupOcc os))
    (map fst (List.filter isTermOcc os))
    (map fst (List.filter isParentTermOcc os))
    (nestedParents os).

Lemma capp_empty_r c : capp c emptyContainer = c.
Proof. destruct c; unfold capp; simpl. by rewrite !app_nil_r. Qed.

Lemma capp_empty_l c : capp emptyContainer c = c.
Proof. by destruct c. Qed.

Lemma capp_assoc c1 c2 c3 : capp (capp c1 c2) c3 = capp c1 (capp c2 c3).
Proof. unfold capp; simpl. by rewrite !app_assoc. Qed.

Lemma summary_app os1 os2 :
  summary (os1 ++ os2) = capp (summary os1) (summary os2).
Proof.
  unfold summary, capp, nestedParents; simpl.
  by rewrite !List.filter_app, !map_app, omap_app.
Qed.

Lemma classify_summary n p c : classify n p c = capp c (summary [(n, p)]).
Proof.
  unfold classify, summary, capp, nestedParents, isGroupOcc, isParentTermOcc,
    isNestedOcc, isTermOcc; simpl.
  destruct c as [g t pt nt]; simpl.
  destruct (truthy (id n)); simpl; [|by rewrite !app_nil_r].
  destruct (hasCategory n); simpl; [|by rewrite !app_nil_r].
  destruct p as [p|]; simpl.
  - destruct (truthy (id p) && hasCategory p); simpl.
    + by rewrite !app_nil_r.
    + destruct (disabled n); simpl; by rewrite ?app_nil_r.
  - destruct (disabled n); simpl; by rewrite ?app_nil_r.
Qed.

Lemma indexTree_summary n :
  ∀ p c, indexTree n p c = capp c (summary (occurrences n p)).
Proof.
  induction n as [i cat d gs IH] using Query_tree_ind. intros p c.
  set (node := mkQuery i cat d gs).
  change (indexTree node p c) with
    (match gs with
     | Some l =>
         (fix loop (gs : list Query) (c : QueryTreeContainer) :=
            match gs with
            | [] => c
            | group :: rest => loop rest (indexTree group (Some node) c)
            end) l (classify node p c)
     | None => classify node p c
     end).
  change (occurrences node p) with
    ([(node, p)] ++
     match gs with
     | Some l =>
         (fix loop (gs : list Query) :=
            match gs with
            | [] => []
            | group :: rest => occurrences group (Some node) ++ loop rest
            end) l
     | None => []
     end).
  rewrite summary_app, <- capp_assoc, <- classify_summary.
  generalize (classify node p c) as c1. clearbody node.
  destruct gs as [l|]; [|intros; by rewrite capp_empty_r].
  specialize (IH l eq_refl).
  induction IH as [|g rest Hg _ IHrest]; intros c1.
  - by rewrite capp_empty_r.
  - rewrite IHrest, Hg, summary_app. by rewrite capp_assoc.
Qed.

Lemma newQueryTreeContainer_summary root :
  newQueryTreeContainer (Some root) = summary (occurrences root None).
Proof.
  unfold newQueryTreeContainer. by rewrite indexTree_summary, capp_empty_l.
Qed.

(** ** Visits and the shape of the tree *)

Lemma Query_children_ind (P : Query → Prop) :
  (∀ q, (∀ g, In g (children q) → P g) → P q) → ∀ q, P q.
Proof.
  intros step. induction q as [i cat d gs IH] using Query_tree_ind.
  apply step. unfold children; simpl. destruct gs as [l|]; [|intros g []].
  intros g Hg. specialize (IH l eq_refl).
  rewrite List.Forall_forall in IH. by apply IH.
Qed.

Lemma occurrences_unfold node parentNode :
  occurrences node parentNode =
  (node, parentNode) ::
  flat_map (fun g => occurrences g (Some node)) (children node).
Proof. by destruct node as [i cat d [l|]]. Qed.

Lemma indexTree_unfold node parentNode c :
  indexTree node parentNode c =
  fold_left (fun c g => indexTree g (Some node) c) (children node)
    (classify node parentNode c).
Proof. by destruct node as [i cat d [l|]]. Qed.

(** The traversal reaches [n] from [parentNode]: the root from nothing, a
    child from the node that lists it in [groups]. *)
Inductive visited (root : Query) : Query → option Query → Prop :=
  | visited_root : visited root root None
  | visited_child p n :
      subnode p root → In n (children p) → visited root n (Some p).

Lemma occurrences_spec root :
  ∀ p0 n p,
    In (n, p) (occurrences root p0) ↔
    (n = root ∧ p = p0) ∨
    (∃ p', p = Some p' ∧ subnode p' root ∧ In n (children p')).
Proof.
  induction root as [root IH] using Query_children_ind. intros p0 n p.
  rewrite occurrences_unfold. simpl. rewrite in_flat_map. split.
  - intros [Heq | (g & Hg & Hin)].
    + left. by inversion Heq.
    + right. apply (IH g Hg) in Hin as [[-> ->] | (p' & -> & Hsub & Hn)].
      * exists root. split; [done|]. split; [constructor | done].
      * exists p'. split; [done|]. split; [by eapply subnode_child | done].
  - intros [[-> ->] | (p' & -> & Hsub & Hn)]; [by left|]. right.
    inversion Hsub as [|? g ? Hg Hsub']; subst.
    + exists n. split; [done|]. rewrite occurrences_unfold. by left.
    + exists g. split; [done|]. apply (IH g Hg). right. by exists p'.
Qed.

Lemma occurrences_visited root n p :
  In (n, p) (occurrences root None) ↔ visited root n p.
Proof.
  rewrite occurrences_spec. split.
  - intros [[-> ->] | (p' & -> & Hsub & Hn)]; by constructor.
  - intros [|p' n' Hsub Hn]; [by left|]. right. by exists p'.
Qed.

Lemma visited_subnode root n p : visited root n p → subnode n root.
Proof.
  intros [|p' n' Hsub Hn]; [constructor|].
  induction Hsub as [q | q g r Hg Hsub IH].
  - eapply subnode_child; [done | constructor].
  - eapply subnode_child; [exact Hg | by apply IH].
Qed.

Lemma subnode_visited root n : subnode n root → ∃ p, visited root n p.
Proof.
  induction 1 as [n | n g root Hg Hsub [p IH]].
  - exists None. constructor.
  - inversion IH as [|p' n' Hsub' Hn]; subst.
    + exists (Some root). constructor; [constructor | done].
    + exists (Some p'). constructor; [by eapply subnode_child | done].
Qed.

(** ** Membership in the four lists *)

Lemma in_summary_terms os n :
  In n (terms (summary os)) ↔ ∃ p, In (n, p) os ∧ isTermOcc (n, p) = true.
Proof.
  unfold summary; simpl. rewrite in_map_iff. split.
  - intros ([n' p] & <- & Hin). apply filter_In in Hin. by exists p.
  - intros (p & Hin & Ht). exists (n, p). split; [done|]. by apply filter_In.
Qed.

Lemma in_summary_groups os n :
  In n (cgroups (summary os)) ↔ ∃ p, In (n, p) os ∧ isGroupOcc (n, p) = true.
Proof.
  unfold summary; simpl. rewrite in_map_iff. split.
  - intros ([n' p] & <- & Hin). apply filter_In in Hin. by exists p.
  - intros (p & Hin & Ht). exists (n, p). split; [done|]. by apply filter_In.
Qed.

Lemma in_summary_parentTerms os n :
  In n (parentTerms (summary os)) ↔
  ∃ p, In (n, p) os ∧ isParentTermOcc (n, p) = true.
Proof.
  unfold summary; simpl. rewrite in_map_iff. split.
  - intros ([n' p] & <- & Hin). apply filter_In in Hin. by exists p.
  - intros (p & Hin & Ht). exists (n, p). split; [done|]. by apply filter_In.
Qed.

Lemma in_summary_nested os q :
  In q (termsByNestedTerm (summary os)) ↔
  ∃ n, In (n, Some q) os ∧ isNestedOcc (n, Some q) = true.
Proof.
  unfold summary, nestedParents; simpl.
  rewrite <- list_elem_of_In, list_elem_of_omap. split.
  - intros ([n p] & Hin & Hq). apply list_elem_of_In in Hin.
    destruct (isNestedOcc (n, p)) eqn:E; [|done]. simpl in Hq. subst p.
    by exists n.
  - intros (n & Hin & Hq). exists (n, Some q).
    split; [by apply list_elem_of_In | by rewrite Hq].
Qed.

(** Every pushed node carries a non-empty id. *)
Lemma summary_ids os n :
  In n (terms (summary os)) ∨ In n (cgroups (summary os)) ∨
  In n (parentTerms (summary os)) ∨ In n (termsByNestedTerm (summary os)) →
  id n ≠ "".
Proof.
  rewrite in_summary_terms, in_summary_groups, in_summary_parentTerms,
    in_summary_nested.
  unfold isParentTermOcc, isNestedOcc, isTermOcc, isGroupOcc, parentIsTerm; simpl.
  intros [(p & _ & H) | [(p & _ & H) | [(p & _ & H) | (m & _ & H)]]];
    apply truthy_true_iff; rewrite ?andb_true_iff in H; tauto.
Qed.

(** ** Example trees *)

(** A measurement criterion nested directly inside another criterion, under
    a combinator root. *)
Definition innerTerm : Query :=
  mkQuery "inner" (Some "measurement") false None.
Definition outerTerm : Query :=
  mkQuery "outer" (Some "measurement") false (Some [innerTerm]).
Definition nestedRoot : Query :=
  mkQuery "root" None false (Some [outerTerm]).

(** A criterion that carries a category but an empty id. *)
Definition idlessTerm : Query :=
  mkQuery "" (Some "medication") false None.

(** An id-less combinator above one enabled criterion. *)
Definition leafTerm : Query :=
  mkQuery "leaf" (Some "report") false None.
Definition idlessGroup : Query :=
  mkQuery "" (Some "medication") false (Some [leafTerm]).

(** ** Lookups *)

Lemma find_id_eq (l : list Query) termId p :
  find (fun t => String.eqb (id t) termId) l = Some p → id p = termId ∧ In p l.
Proof.
  intros H. apply find_some in H as [Hin Heq].
  split; [by apply String.eqb_eq | done].
Qed.

(** [getParentTerm] answers with a node whose own id is the requested one. *)
Lemma getParentTerm_own_id c termId p :
  getParentTerm c termId = Some p → id p = termId.
Proof. intros H. by apply find_id_eq in H as [? _]. Qed.

(** ** Theorems about the container *)

(** C3: with one term nested directly inside another, the parent is pushed
    to the nested-term list, but [getParentTerm] compares the requested id
    with the ids of the stored parents: asked for the inner term it finds
    nothing, asked for the outer term (which has no enclosing term) it
    returns the outer term itself. *)
Theorem getParentTerm_nested_example :
  let c := newQueryTreeContainer (Some nestedRoot) in
  termsByNestedTerm c = [outerTerm] ∧
  getParentTerm c "inner" = None ∧
  getParentTerm c "outer" = Some outerTerm.
Proof. by vm_compute. Qed.

(** C7, as stated, fails: a node with a non-empty category and an empty id
    is pushed to no list, so it is neither a term nor a group. *)
Lemma idless_term_not_classified :
  let c := newQueryTreeContainer (Some idlessTerm) in
  subnode idlessTerm idlessTerm ∧ hasCategory idlessTerm = true ∧
  ¬ In idlessTerm (getAllTerms c) ∧ ¬ In idlessTerm (cgroups c).
Proof. split; [constructor|]. vm_compute. tauto. Qed.

(** C7, amended: among the nodes of the tree, the terms are those with a
    non-empty id and a non-empty category, the groups those with a
    non-empty id and no category; a node is a parent term exactly when it is
    visited as an enabled term whose parent is absent, has an empty id or has
    no category. *)
Theorem classification_by_id_and_category root n :
  let c := newQueryTreeContainer (Some root) in
  (In n (getAllTerms c) ↔ subnode n root ∧ id n ≠ "" ∧ hasCategory n = true) ∧
  (In n (cgroups c) ↔ subnode n root ∧ id n ≠ "" ∧ hasCategory n = false) ∧
  (In n (getParentTerms c) ↔
     ∃ p, visited root n p ∧ id n ≠ "" ∧ hasCategory n = true ∧
          disabled n = false ∧
          (p = None ∨ ∃ q, p = Some q ∧ (id q = "" ∨ hasCategory q = false))).
Proof.
  intros c. subst c. unfold getAllTerms, getParentTerms.
  rewrite newQueryTreeContainer_summary.
  rewrite in_summary_terms, in_summary_groups, in_summary_parentTerms.
  unfold isParentTermOcc, isTermOcc, isGroupOcc; simpl.
  split; [|split].
  - split.
    + intros (p & Hin & H). apply andb_true_iff in H as [Hid Hcat].
      apply occurrences_visited, visited_subnode in Hin.
      by rewrite <- truthy_true_iff.
    + intros (Hsub & Hid & Hcat). apply subnode_visited in Hsub as [p Hp].
      exists p. rewrite occurrences_visited. split; [done|].
      apply truthy_true_iff in Hid. by rewrite Hid, Hcat.
  - split.
    + intros (p & Hin & H). apply andb_true_iff in H as [Hid Hcat].
      apply occurrences_visited, visited_subnode in Hin.
      apply negb_true_iff in Hcat. by rewrite <- truthy_true_iff.
    + intros (Hsub & Hid & Hcat). apply subnode_visited in Hsub as [p Hp].
      exists p. rewrite occurrences_visited. split; [done|].
      apply truthy_true_iff in Hid. by rewrite Hid, Hcat.
  - split.
    + intros (p & Hin & H). exists p. rewrite !andb_true_iff in H.
      destruct H as [[[Hid Hcat] Hp] Hd].
      apply negb_true_iff in Hp, Hd. apply truthy_true_iff in Hid.
      apply occurrences_visited in Hin. repeat (split; [done|]).
      destruct p as [q|]; [right | by left]. exists q. split; [done|].
      simpl in Hp. apply andb_false_iff in Hp as [Hq | Hq]; [left | by right].
      by apply truthy_false_iff.
    + intros (p & Hv & Hid & Hcat & Hd & Hp). exists p.
      rewrite occurrences_visited. split; [done|].
      apply truthy_true_iff in Hid. rewrite Hid, Hcat, Hd; simpl.
      destruct Hp as [-> | (q & -> & [Hq | Hq])]; simpl; [done | |].
      * apply truthy_false_iff in Hq. by rewrite Hq.
      * rewrite Hq. by rewrite andb_false_r.
Qed.

(** C9: two containers built from the same tree hold the same four lists,
    element for element; each list is a filter of the pre-order visit list
    of the tree, which lists a node before the visits of its children, taken
    from left to right. *)
Theorem construction_is_repeatable (rootNode : option Query) :
  let c1 := newQueryTreeContainer rootNode in
  let c2 := newQueryTreeContainer rootNode in
  (getAllTerms c1 = getAllTerms c2 ∧ cgroups c1 = cgroups c2 ∧
   getParentTerms c1 = getParentTerms c2 ∧
   termsByNestedTerm c1 = termsByNestedTerm c2) ∧
  c1 = summary (match rootNode with
                | Some root => occurrences root None
                | None => []
                end) ∧
  (∀ node parentNode,
     occurrences node parentNode =
     (node, parentNode) ::
     flat_map (fun g => occurrences g (Some node)) (children node)).
Proof.
  intros c1 c2. split; [done|]. split; [|apply occurrences_unfold].
  subst c1. destruct rootNode as [root|]; [|done].
  apply newQueryTreeContainer_summary.
Qed.

(** C10: a node with an empty id is in none of the four lists; visiting it
    pushes nothing and goes on to its children, which are classified as if
    they had no parent: a child with an id is a term (and, when enabled, a
    parent term) or a group according to its own category. *)
Theorem idless_node_unclassified root n :
  id n = "" →
  let c := newQueryTreeContainer (Some root) in
  (¬ In n (getAllTerms c) ∧ ¬ In n (cgroups c) ∧
   ¬ In n (getParentTerms c) ∧ ¬ In n (termsByNestedTerm c)) ∧
  (∀ p c0, indexTree n p c0 =
           fold_left (fun c g => indexTree g (Some n) c) (children n) c0) ∧
  (∀ g c0, indexTree g (Some n) c0 = indexTree g None c0) ∧
  (subnode n root → ∀ g, In g (children n) → id g ≠ "" →
     if hasCategory g
     then In g (getAllTerms c) ∧ (disabled g = false → In g (getParentTerms c))
     else In g (cgroups c)).
Proof.
  intros Hid c. subst c. unfold getAllTerms, getParentTerms.
  rewrite newQueryTreeContainer_summary.
  assert (truthy (id n) = false) as Hn by by apply truthy_false_iff.
  split; [|split; [|split]].
  - repeat split; intros Hin; eapply summary_ids; eauto.
  - intros p c0. rewrite indexTree_unfold. unfold classify. by rewrite Hn.
  - intros g c0. rewrite !indexTree_unfold. unfold classify, parentIsTerm.
    by rewrite Hn.
  - intros Hsub g Hg Hgid. apply truthy_true_iff in Hgid.
    assert (In (g, Some n) (occurrences root None)) as Hocc.
    { apply occurrences_visited. by constructor. }
    destruct (hasCategory g) eqn:Hcat.
    + split.
      * apply in_summary_terms. exists (Some n). split; [done|].
        unfold isTermOcc; simpl. by rewrite Hgid, Hcat.
      * intros Hd. apply in_summary_parentTerms. exists (Some n).
        split; [done|]. unfold isParentTermOcc, isTermOcc; simpl.
        by rewrite Hgid, Hcat, Hn, Hd.
    + apply in_summary_groups. exists (Some n). split; [done|].
      unfold isGroupOcc; simpl. by rewrite Hgid, Hcat.
Qed.

Lemma idless_node_unclassified_witness :
  id idlessGroup = "" ∧
  ¬ In idlessGroup (getAllTerms (newQueryTreeContainer (Some idlessGroup))) ∧
  In leafTerm (getParentTerms (newQueryTreeContainer (Some idlessGroup))).
Proof.
  split; [reflexivity|].
  pose proof (idless_node_unclassified idlessGroup idlessGroup eq_refl) as H.
  simpl in H. destruct H as [[H1 _] [_ [_ H4]]]. split; [exact H1|].
  specialize (H4 (subnode_refl _) leafTerm (or_introl eq_refl)).
  apply H4; [discriminate | reflexivity].
Defined.

(** ** Further properties of the container *)

(** A lookup by id in one of the lists. *)
Lemma find_by_id_Some (l : list Query) i t :
  find (fun t => String.eqb (id t) i) l = Some t → In t l ∧ id t = i.
Proof.
  intros H. apply find_some in H as [Hin Heq]. split; [done|].
  by apply String.eqb_eq.
Qed.

Lemma find_by_id_None (l : list Query) i :
  find (fun t => String.eqb (id t) i) l = None ↔ ∀ t, In t l → id t ≠ i.
Proof.
  induction l as [|x rest IH]; simpl; [by split|].
  destruct (String.eqb_spec (id x) i) as [Heq | Hne].
  - split; [done|]. intros H. by destruct (H x (or_introl eq_refl)).
  - rewrite IH. split.
    + intros H t [<- | Hin]; [done | by apply H].
    + intros H t Hin. apply H. by right.
Qed.

Lemma find_by_id_unique (l : list Query) t :
  In t l → (∀ t', In t' l → id t' = id t → t' = t) →
  find (fun t' => String.eqb (id t') (id t)) l = Some t.
Proof.
  intros Hin Huniq.
  destruct (find _ l) as [t'|] eqn:Hf.
  - apply find_by_id_Some in Hf as [Hin' Hid]. f_equal. by apply Huniq.
  - rewrite find_by_id_None in Hf. by destruct (Hf t Hin).
Qed.

Lemma in_terms_iff root n :
  In n (terms (newQueryTreeContainer (Some root))) ↔
  subnode n root ∧ id n ≠ "" ∧ hasCategory n = true.
Proof.
  rewrite newQueryTreeContainer_summary, in_summary_terms.
  unfold isTermOcc; simpl. split.
  - intros (p & Hin & H). apply andb_true_iff in H as [Hid Hcat].
    apply occurrences_visited, visited_subnode in Hin.
    by rewrite <- truthy_true_iff.
  - intros (Hsub & Hid & Hcat). apply subnode_visited in Hsub as [p Hp].
    exists p. rewrite occurrences_visited. split; [done|].
    apply truthy_true_iff in Hid. by rewrite Hid, Hcat.
Qed.

Lemma in_groups_iff root n :
  In n (cgroups (newQueryTreeContainer (Some root))) ↔
  subnode n root ∧ id n ≠ "" ∧ hasCategory n = false.
Proof.
  rewrite newQueryTreeContainer_summary, in_summary_groups.
  unfold isGroupOcc; simpl. split.
  - intros (p & Hin & H). apply andb_true_iff in H as [Hid Hcat].
    apply occurrences_visited, visited_subnode in Hin.
    apply negb_true_iff in Hcat. by rewrite <- truthy_true_iff.
  - intros (Hsub & Hid & Hcat). apply subnode_visited in Hsub as [p Hp].
    exists p. rewrite occurrences_visited. split; [done|].
    apply truthy_true_iff in Hid. by rewrite Hid, Hcat.
Qed.

Lemma in_nested_iff root p :
  In p (termsByNestedTerm (newQueryTreeContainer (Some root))) ↔
  subnode p root ∧ id p ≠ "" ∧ hasCategory p = true ∧
  ∃ child, In child (children p) ∧ id child ≠ "" ∧ hasCategory child = true.
Proof.
  rewrite newQueryTreeContainer_summary, in_summary_nested.
  unfold isNestedOcc, isTermOcc, parentIsTerm; simpl. split.
  - intros (n & Hin & H). rewrite !andb_true_iff in H.
    destruct H as [[Hn Hcn] [Hp Hcp]].
    apply occurrences_visited in Hin.
    inversion Hin as [|p' n' Hsub Hchild]; subst.
    apply truthy_true_iff in Hn, Hp. repeat (split; [done|]). by exists n.
  - intros (Hsub & Hp & Hcp & child & Hchild & Hn & Hcn). exists child.
    rewrite occurrences_visited. split; [by constructor|].
    apply truthy_true_iff in Hp, Hn. by rewrite Hp, Hn, Hcp, Hcn.
Qed.

(** [getTerm] finds a term of the tree with the requested id, and finds one
    whenever the tree has a node with that id (not empty) and a category;
    with no second term of the same id it is that node. *)
Theorem getTerm_lookup root termId :
  let c := newQueryTreeContainer (Some root) in
  (∀ t, getTerm c termId = Some t →
        id t = termId ∧ termId ≠ "" ∧ hasCategory t = true ∧ subnode t root) ∧
  (getTerm c termId = None ↔
   ¬ ∃ n, subnode n root ∧ id n = termId ∧ termId ≠ "" ∧ hasCategory n = true) ∧
  (∀ t, In t (getAllTerms c) →
        (∀ t', In t' (getAllTerms c) → id t' = id t → t' = t) →
        getTerm c (id t) = Some t).
Proof.
  intros c. subst c. unfold getTerm, getAllTerms. split; [|split].
  - intros t [Hin Hid]%find_by_id_Some.
    apply in_terms_iff in Hin as (Hsub & Hne & Hcat). by subst.
  - rewrite find_by_id_None. split.
    + intros Hnone (n & Hsub & Hid & Hne & Hcat).
      apply (Hnone n); [|done]. apply in_terms_iff. by subst.
    + intros Hno t Hin Hid. apply Hno. exists t.
      apply in_terms_iff in Hin as (Hsub & Hne & Hcat). by subst.
  - intros t Hin Huniq. by apply find_by_id_unique.
Qed.

Lemma getTerm_lookup_witness :
  getTerm (newQueryTreeContainer (Some nestedRoot)) "inner" = Some innerTerm.
Proof.
  destruct (getTerm_lookup nestedRoot "inner") as (_ & _ & Huniq).
  apply (Huniq innerTerm).
  - simpl. tauto.
  - intros t' Hin Hid. simpl in Hin.
    destruct Hin as [<- | [<- | []]]; [discriminate Hid | reflexivity].
Defined.

(** [getGroup] does the same among the nodes without a category. *)
Theorem getGroup_lookup root groupId :
  let c := newQueryTreeContainer (Some root) in
  (∀ g, getGroup c groupId = Some g →
        id g = groupId ∧ groupId ≠ "" ∧ hasCategory g = false ∧ subnode g root) ∧
  (getGroup c groupId = None ↔
   ¬ ∃ n, subnode n root ∧ id n = groupId ∧ groupId ≠ "" ∧
          hasCategory n = false) ∧
  (∀ g, In g (cgroups c) →
        (∀ g', In g' (cgroups c) → id g' = id g → g' = g) →
        getGroup c (id g) = Some g).
Proof.
  intros c. subst c. unfold getGroup. split; [|split].
  - intros t [Hin Hid]%find_by_id_Some.
    apply in_groups_iff in Hin as (Hsub & Hne & Hcat). by subst.
  - rewrite find_by_id_None. split.
    + intros Hnone (n & Hsub & Hid & Hne & Hcat).
      apply (Hnone n); [|done]. apply in_groups_iff. by subst.
    + intros Hno t Hin Hid. apply Hno. exists t.
      apply in_groups_iff in Hin as (Hsub & Hne & Hcat). by subst.
  - intros t Hin Huniq. by apply find_by_id_unique.
Qed.

Lemma getGroup_lookup_witness :
  getGroup (newQueryTreeContainer (Some nestedRoot)) "root" = Some nestedRoot.
Proof.
  destruct (getGroup_lookup nestedRoot "root") as (_ & _ & Huniq).
  apply (Huniq nestedRoot).
  - simpl. tauto.
  - intros g' Hin Hid. simpl in Hin. by destruct Hin as [<- | []].
Defined.

(** [getParentTerm] answers with a term of the tree that has the requested
    id itself and lists a term directly in its [groups]; it answers
    undefined exactly when the tree has no such term. *)
Theorem getParentTerm_behaviour root termId :
  let c := newQueryTreeContainer (Some root) in
  (∀ p, getParentTerm c termId = Some p →
        id p = termId ∧ termId ≠ "" ∧ hasCategory p = true ∧ subnode p root ∧
        ∃ child, In child (children p) ∧ id child ≠ "" ∧
                 hasCategory child = true) ∧
  (getParentTerm c termId = None ↔
   ¬ ∃ p child, subnode p root ∧ id p = termId ∧ termId ≠ "" ∧
                hasCategory p = true ∧ In child (children p) ∧
                id child ≠ "" ∧ hasCategory child = true).
Proof.
  intros c. subst c. unfold getParentTerm. split.
  - intros p [Hin Hid]%find_by_id_Some.
    apply in_nested_iff in Hin as (Hsub & Hne & Hcat & Hchild). by subst.
  - rewrite find_by_id_None. split.
    + intros Hnone (p & child & Hsub & Hid & Hne & Hcat & Hchild & Hc & Hcc).
      apply (Hnone p); [|done]. apply in_nested_iff. subst.
      repeat (split; [done|]). by exists child.
    + intros Hno p Hin Hid. apply Hno.
      apply in_nested_iff in Hin as (Hsub & Hne & Hcat & child & Hchild & Hc & Hcc).
      exists p, child. by subst.
Qed.

Lemma getParentTerm_behaviour_witness :
  id outerTerm = "outer" ∧ subnode outerTerm nestedRoot.
Proof.
  destruct (getParentTerm_behaviour nestedRoot "outer") as (Hsome & _).
  destruct (Hsome outerTerm eq_refl) as (Hid & _ & _ & Hsub & _). by split.
Defined.

Lemma summary_sublist os :
  sublist (parentTerms (summary os)) (terms (summary os)).
Proof.
  unfold summary; simpl. induction os as [|o os IH]; simpl; [constructor|].
  unfold isParentTermOcc at 1.
  destruct (isTermOcc o); simpl; [|done].
  destruct (negb (parentIsTerm o.2) && negb (disabled o.1)); simpl.
  - by constructor.
  - by apply sublist_cons.
Qed.

Lemma summary_single_lengths o :
  length (parentTerms (summary [o])) + length (termsByNestedTerm (summary [o])) ≤
  length (terms (summary [o])) ∧
  ((∀ t, In t (terms (summary [o])) → disabled t = false) →
   length (terms (summary [o])) =
   length (parentTerms (summary [o])) + length (termsByNestedTerm (summary [o]))).
Proof.
  destruct o as [n p].
  unfold summary, nestedParents, isParentTermOcc, isNestedOcc, isTermOcc,
    parentIsTerm; simpl.
  destruct (truthy (id n)), (hasCategory n); simpl; try (split; [lia | done]).
  destruct p as [p|]; simpl.
  - destruct (truthy (id p)), (hasCategory p); simpl;
      try (split; [lia | done]);
      destruct (disabled n) eqn:Hd; simpl; (split; [lia|]); try done;
      intros Hen; specialize (Hen n (or_introl eq_refl)); congruence.
  - destruct (disabled n) eqn:Hd; simpl; (split; [lia|]); try done.
    intros Hen. specialize (Hen n (or_introl eq_refl)). congruence.
Qed.

Lemma summary_lengths os :
  length (parentTerms (summary os)) + length (termsByNestedTerm (summary os)) ≤
  length (terms (summary os)) ∧
  ((∀ t, In t (terms (summary os)) → disabled t = false) →
   length (terms (summary os)) =
   length (parentTerms (summary os)) + length (termsByNestedTerm (summary os))).
Proof.
  induction os as [|o os [IHle IHeq]]; [by split|].
  change (o :: os) with ([o] ++ os). rewrite summary_app.
  destruct (summary_single_lengths o) as [Hle Heq].
  unfold capp; cbn [parentTerms terms termsByNestedTerm].
  rewrite !length_app. split; [lia|].
  intros Hen. rewrite Heq, IHeq; [lia | |].
  - intros t Hin. apply Hen, in_app_iff. by right.
  - intros t Hin. apply Hen, in_app_iff. by left.
Qed.

(** The parent terms are a sub-list of the terms, in the same order; the
    stored parents of nested terms are terms as well; no node is both a term
    and a group.  Each term counts at most once as a parent term or as a
    nested term, and exactly once when no term is disabled. *)
Theorem lists_fit_together (rootNode : option Query) :
  let c := newQueryTreeContainer rootNode in
  sublist (getParentTerms c) (getAllTerms c) ∧
  (∀ p, In p (termsByNestedTerm c) → In p (getAllTerms c)) ∧
  (∀ n, In n (getAllTerms c) → ¬ In n (cgroups c)) ∧
  length (getParentTerms c) + length (termsByNestedTerm c) ≤
    length (getAllTerms c) ∧
  ((∀ t, In t (getAllTerms c) → disabled t = false) →
   length (getAllTerms c) =
   length (getParentTerms c) + length (termsByNestedTerm c)).
Proof.
  intros c. subst c. unfold getParentTerms, getAllTerms.
  destruct rootNode as [root|]; [|by repeat split; simpl; try constructor].
  split; [|split; [|split]].
  - rewrite newQueryTreeContainer_summary. apply summary_sublist.
  - intros p (Hsub & Hid & Hcat & _)%in_nested_iff. by apply in_terms_iff.
  - intros n (_ & _ & Hcat)%in_terms_iff (_ & _ & Hcat')%in_groups_iff.
    congruence.
  - rewrite newQueryTreeContainer_summary. apply summary_lengths.
Qed.

Lemma lists_fit_together_witness :
  length (getAllTerms (newQueryTreeContainer (Some nestedRoot))) =
  length (getParentTerms (newQueryTreeContainer (Some nestedRoot))) +
  length (termsByNestedTerm (newQueryTreeContainer (Some nestedRoot))).
Proof.
  destruct (lists_fit_together (Some nestedRoot)) as (_ & _ & _ & _ & Heq).
  apply Heq. intros t Hin. simpl in Hin.
  destruct Hin as [<- | [<- | []]]; reflexivity.
Defined.

(** Indexing a subtree appends to the lists already held and leaves them
    otherwise alone; the lists of a tree are the entry of the root followed
    by the lists of the subtrees of its children, in the order of [groups]. *)
Theorem indexing_composes node parentNode c :
  indexTree node parentNode c =
  capp c (indexTree node parentNode emptyContainer) ∧
  indexTree node parentNode emptyContainer =
  fold_left (fun acc g => capp acc (indexTree g (Some node) emptyContainer))
    (children node) (classify node parentNode emptyContainer).
Proof.
  split.
  - by rewrite (indexTree_summary node parentNode c),
      (indexTree_summary node parentNode emptyContainer), capp_empty_l.
  - rewrite indexTree_unfold.
    generalize (classify node parentNode emptyContainer).
    induction (children node) as [|g rest IH]; intros c0; simpl; [done|].
    rewrite <- IH. f_equal.
    by rewrite (indexTree_summary g), (indexTree_summary g _ emptyContainer),
      capp_empty_l.
Qed.

End QueryTree.

(* ================================================================== *)
(** * The data collector query *)
(* ================================================================== *)

Module Cdc.

(** ** Types *)

(** Numeric enums; the first member of each has the value 0. *)
Inductive SearchCategoryType : Type :=
  Demographic | Appointment | Measurement | Procedure.

Inductive QuestionType : Type :=
  SingleAnswer | MultipleChoiceSingleAnswer | Repeated.

(** The member [None] of the source is spelled [None_]. *)
Inductive QueryMatchType : Type := Any | All | None_ | NoneAll.

Inductive SortDirection : Type := Ascending | Descending.

Definition isMultipleChoiceSingleAnswer (t : QuestionType) : bool :=
  match t with
  | MultipleChoiceSingleAnswer => true
  | _ => false
  end.

(** [class Section]. *)
Record Section_ : Type := mkSection { section_id : string }.

(** Query objects are mutable and shared: they live in a heap and are
    referred to by location. *)
Definition loc : Type := nat.

(** [class Answer].  The [question] back-reference is only ever read for
    its [id], so the field holds that id ([None] when the reference is
    absent); [query] refers to the root query object of the answer. *)
Record Answer : Type := mkAnswer {
  answer_id : string;
  hidden : bool;
  questionId : option string;
  query : option loc
}.

(** [class Question]. *)
Record Question : Type := mkQuestion {
  question_id : string;
  question_disabled : bool;
  questionType : QuestionType;
  answers : option (list Answer);
  question_sortDirection : SortDirection
}.

(** [class Query].  As for answers, the [parent] and [answer]
    back-references are kept as the id they are read for. *)
Record Query : Type := mkQuery {
  id : string;
  disabled : bool;
  collect : bool;
  parentId : option string;
  groups : option (list loc);
  answerId : option string;
  category : option SearchCategoryType;
  match_ : QueryMatchType;
  sortDirection : SortDirection
}.

(** [term.category] in a condition: a member of a numeric enum is truthy
    unless it is the member 0. *)
Definition truthyCategory (c : option SearchCategoryType) : bool :=
  match c with
  | Some Demographic => false
  | Some _ => true
  | None => false
  end.

(** The category [Demographic] fails the test, like an absent category. *)
Lemma truthyCategory_Demographic : truthyCategory (Some Demographic) = false.
Proof. reflexivity. Qed.

(** The heap of query objects. *)
Definition Heap : Type := loc → Query.

Definition update (h : Heap) (l : loc) (q : Query) : Heap :=
  fun l' => if Nat.eqb l' l then q else h l'.

Definition withSortDirection (d : SortDirection) (q : Query) : Query :=
  mkQuery (id q) (disabled q) (collect q) (parentId q) (groups q) (answerId q)
    (category q) (match_ q) d.

Definition withGroups (gs : list loc) (q : Query) : Query :=
  mkQuery (id q) (disabled q) (collect q) (parentId q) (Some gs) (answerId q)
    (category q) (match_ q) (sortDirection q).

(** [Map<string, Answer>] as loaded, in insertion order. *)
Definition AnswerMap : Type := list (string * Answer).

Definition answerMap_get (m : AnswerMap) (key : string) : option Answer :=
  snd <$> find (fun e => String.eqb (fst e) key) m.

Definition answerMap_values (m : AnswerMap) : list Answer := map snd m.

(** The synthetic root: a fresh [Query] of which only [match] and [groups]
    are assigned. *)
Record CombinedQuery : Type := mkCombinedQuery {
  combined_match : QueryMatchType;
  combined_groups : list loc
}.

(** The heap together with the three indexes handed to [walkTree]. *)
Record State : Type := mkState {
  heap : Heap;
  termToAnswerMap : gmap string Answer;
  answerToTermsMap : gmap string (list loc);
  collectedChildrenMap : gmap string bool
}.

(** What [getDataCollectorQuery] returns, with the heap it leaves behind and
    the arguments of the repository calls it made. *)
Record Result : Type := mkResult {
  combinedQuery : option CombinedQuery;
  result_answerToTermsMap : gmap string (list loc);
  result_termToAnswerMap : gmap string Answer;
  result_answerMap : AnswerMap;
  terms : list loc;
  termMap : gmap string loc;
  result_collectedChildrenMap : gmap string bool;
  result_sectionMap : gmap string Section_;
  finalHeap : Heap;
  repositoryCalls : list (list loc)
}.

(** [interface QueryRepository]: the nodes which are (indirectly)
    descendants of the given queries. *)
Record QueryRepository : Type := mkQueryRepository {
  findDescendantsForEntities : list loc → list loc
}.

(** ** Operations *)

Definition addOneToMultiMap {V : Type} (map : gmap string (list V))
    (key : string) (value : V) : gmap string (list V) :=
  match map !! key with
  | Some values => <[key := values ++ [value]]> map
  | None => <[key := [value]]> map
  end.

(** One round of the loop of [buildQueryTree]. *)
Definition buildQueryTree_step (h : Heap)
    (acc : gmap string (list loc) * gmap string loc) (term : loc)
    : gmap string (list loc) * gmap string loc :=
  match parentId (h term) with
  | Some pid =>
      if truthy pid
      then (addOneToMultiMap acc.1 pid term, <[id (h term) := term]> acc.2)
      else acc
  | None => acc
  end.

Definition buildQueryTree (h : Heap) (terms : list loc)
    : gmap string (list loc) * gmap string loc :=
  fold_left (buildQueryTree_step h) terms (∅, ∅).

(** [for (const x of l) body], where the body may fail to return. *)
Fixpoint forEach {A S : Type} (l : list A) (body : A → S → option S) (s : S)
    : option S :=
  match l with
  | [] => Some s
  | x :: rest =>
      match body x s with
      | Some s' => forEach rest body s'
      | None => None
      end
  end.

(** [collectedChildren.length !== 0] for the children [gs]. *)
Definition anyCollected (h : Heap) (gs : list loc) : bool :=
  negb (Nat.eqb (length (List.filter (fun v => collect (h v)) gs)) 0).

(** The straight-line head of [walkTree]: the assignments to
    [term.sortDirection], the two index maps and [term.groups]. *)
Definition visitTerm (term : loc) (answer : Answer) (question : Question)
    (tree : gmap string (list loc)) (s : State) : State :=
  let termId := id (heap s term) in
  let h1 :=
    update (heap s) term
      (withSortDirection (question_sortDirection question) (heap s term)) in
  let t2a := <[termId := answer]> (termToAnswerMap s) in
  let a2t := addOneToMultiMap (answerToTermsMap s) (answer_id answer) term in
  let h2 :=
    update h1 term (withGroups (default [] (tree !! id (h1 term))) (h1 term)) in
  mkState h2 t2a a2t (collectedChildrenMap s).

(** [walkTree].  The recursion follows the parent index, which need not be
    well founded, so it is bounded by [fuel]; [None] stands for a walk that
    does not return within it. *)
Fixpoint walkTree (fuel : nat) (term : loc) (answer : Answer)
    (question : Question) (tree : gmap string (list loc)) (s : State)
    : option State :=
  match fuel with
  | O => None
  | S fuel' =>
      let s1 := visitTerm term answer question tree s in
      let termGroups := default [] (groups (heap s1 term)) in
      if disabled (heap s1 term) || Nat.eqb (length termGroups) 0 then Some s1
      else
        match
          forEach termGroups
            (fun child s =>
               if disabled (heap s child) then Some s
               else walkTree fuel' child answer question tree s)
            s1
        with
        | Some s2 =>
            if truthyCategory (category (heap s2 term)) then
              Some (mkState (heap s2) (termToAnswerMap s2) (answerToTermsMap s2)
                      (<[id (heap s2 term) :=
                           anyCollected (heap s2)
                             (default [] (groups (heap s2 term)))]>
                         (collectedChildrenMap s2)))
            else Some s2
        | None => None
        end
  end.

(** The callback of [answers.map] in [getDataCollectorQuery]. *)
Definition selectQuery (questionMap : gmap string Question) (answer : Answer)
    : option loc :=
  match questionId answer with
  | Some qid =>
      if hidden answer then
        match questionMap !! qid with
        | Some question =>
            if isMultipleChoiceSingleAnswer (questionType question)
            then query answer
            else None
        | None => None
        end
      else query answer
  | None => query answer
  end.

(** [answers.map(...).filter(Boolean)]: object references are truthy, the
    filter drops the undefined entries. *)
Definition rootQueriesOf (questionMap : gmap string Question)
    (answerMap : AnswerMap) : list loc :=
  omap (selectQuery questionMap) (answerMap_values answerMap).

(** The answer and the question a root query resolves to. *)
Definition resolveAnswer (answerMap : AnswerMap) (h : Heap) (rootQuery : loc)
    : option Answer :=
  match answerId (h rootQuery) with
  | Some aid => answerMap_get answerMap aid
  | None => None
  end.

Definition resolveQuestion (questionMap : gmap string Question)
    (answer : option Answer) : option Question :=
  match answer with
  | Some a =>
      match questionId a with
      | Some qid => questionMap !! qid
      | None => None
      end
  | None => None
  end.

(** The variables of the root loop. *)
Record LoopState : Type := mkLoopState {
  loop_state : State;
  loop_groups : list loc;
  questionCombinedQueries : gmap string (list loc)
}.

(** The body of the loop over [rootQueries]. *)
Definition rootStep (fuel : nat) (questionMap : gmap string Question)
    (answerMap : AnswerMap) (tree : gmap string (list loc))
    (rootQuery : loc) (ls : LoopState) : option LoopState :=
  let s := loop_state ls in
  let answer := resolveAnswer answerMap (heap s) rootQuery in
  let question := resolveQuestion questionMap answer in
  match answer, question with
  | Some answer, Some question =>
      let combinedGroups := loop_groups ls ++ [rootQuery] in
      let h1 :=
        update (heap s) rootQuery
          (withGroups (default [] (tree !! id (heap s rootQuery)))
             (heap s rootQuery)) in
      let s1 :=
        mkState h1 (termToAnswerMap s) (answerToTermsMap s)
          (collectedChildrenMap s) in
      match
        forEach (default [] (groups (heap s1 rootQuery)))
          (fun term s => walkTree fuel term answer question tree s) s1
      with
      | Some s2 =>
          Some (mkLoopState s2 combinedGroups
                  (addOneToMultiMap (questionCombinedQueries ls)
                     (question_id question) rootQuery))
      | None => None
      end
  | _, _ => Some ls
  end.

Section Run.

(** The metadata loader, whose implementation the source omits, and the
    repository interface. *)
Variable getSectionsQuestionsAndAnswers :
  string → gmap string Section_ * gmap string Question * AnswerMap.
Variable queryRepository : QueryRepository.

(** [getDataCollectorQuery], run on the heap [h].  The closing loop over
    [questionCombinedQueries] only fills maps local to its body and is
    left out. *)
Definition getDataCollectorQuery (fuel : nat) (projectId : string)
    (h : Heap) : option Result :=
  let '(sectionMap, questionMap, answerMap) :=
    getSectionsQuestionsAndAnswers projectId in
  let rootQueries := rootQueriesOf questionMap answerMap in
  if Nat.eqb (length rootQueries) 0 then
    Some (mkResult None ∅ ∅ answerMap [] ∅ ∅ sectionMap h [])
  else
    let terms := findDescendantsForEntities queryRepository rootQueries in
    let '(tree, termMap) := buildQueryTree h terms in
    match
      forEach rootQueries (rootStep fuel questionMap answerMap tree)
        (mkLoopState (mkState h ∅ ∅ ∅) [] ∅)
    with
    | Some ls =>
        let s := loop_state ls in
        Some (mkResult (Some (mkCombinedQuery Any (loop_groups ls)))
                (answerToTermsMap s) (termToAnswerMap s) answerMap terms
                termMap (collectedChildrenMap s) sectionMap (heap s)
                [rootQueries])
    | None => None
    end.


(** ** Specification vocabulary *)

(** The children the parent index lists under the id of [n]. *)
Definition kids (h : Heap) (tree : gmap string (list loc)) (n : loc) : list loc :=
  default [] (tree !! id (h n)).

(** The fields of a query object that no operation assigns. *)
Definition static (q : Query) :=
  (id q, disabled q, collect q, parentId q, answerId q, category q, match_ q).

Definition static_eq (h h' : Heap) : Prop := ∀ l, static (h l) = static (h' l).

(** The writes of the combination, one event per write group: a call of
    [walkTree] reaching [term], the closing write of such a call to the
    collected-children map, and the assignment of [groups] to a root. *)
Inductive Event : Type :=
  | Visit (term : loc) (answer : Answer) (question : Question)
  | Collect (term : loc)
  | Attach (rootQuery : loc).

Definition collectTerm (tree : gmap string (list loc)) (term : loc) (s : State)
    : State :=
  mkState (heap s) (termToAnswerMap s) (answerToTermsMap s)
    (<[id (heap s term) := anyCollected (heap s) (kids (heap s) tree term)]>
       (collectedChildrenMap s)).

Definition attachRoot (tree : gmap string (list loc)) (rootQuery : loc)
    (s : State) : State :=
  mkState
    (update (heap s) rootQuery
       (withGroups (kids (heap s) tree rootQuery) (heap s rootQuery)))
    (termToAnswerMap s) (answerToTermsMap s) (collectedChildrenMap s).

Definition applyEvent (tree : gmap string (list loc)) (s : State) (e : Event)
    : State :=
  match e with
  | Visit term answer question => visitTerm term answer question tree s
  | Collect term => collectTerm tree term s
  | Attach rootQuery => attachRoot tree rootQuery s
  end.

Definition applyEvents (tree : gmap string (list loc)) (evs : list Event)
    (s : State) : State :=
  fold_left (applyEvent tree) evs s.

Fixpoint concatEvents {A : Type} (l : list A) (f : A → option (list Event))
    : option (list Event) :=
  match l with
  | [] => Some []
  | x :: rest =>
      match f x, concatEvents rest f with
      | Some e1, Some e2 => Some (e1 ++ e2)
      | _, _ => None
      end
  end.

(** The events of one call of [walkTree], in order. *)
Fixpoint walkEvents (fuel : nat) (h : Heap) (tree : gmap string (list loc))
    (term : loc) (answer : Answer) (question : Question)
    : option (list Event) :=
  match fuel with
  | O => None
  | S fuel' =>
      if disabled (h term) || Nat.eqb (length (kids h tree term)) 0
      then Some [Visit term answer question]
      else
        match
          concatEvents (kids h tree term)
            (fun child =>
               if disabled (h child) then Some []
               else walkEvents fuel' h tree child answer question)
        with
        | Some evs =>
            Some (Visit term answer question :: evs ++
                  (if truthyCategory (category (h term))
                   then [Collect term] else []))
        | None => None
        end
  end.

(** The events of one round of the root loop. *)
Definition rootEvents (fuel : nat) (h : Heap)
    (questionMap : gmap string Question) (answerMap : AnswerMap)
    (tree : gmap string (list loc)) (rootQuery : loc) : option (list Event) :=
  match resolveAnswer answerMap h rootQuery with
  | Some answer =>
      match resolveQuestion questionMap (Some answer) with
      | Some question =>
          match
            concatEvents (kids h tree rootQuery)
              (fun term => walkEvents fuel h tree term answer question)
          with
          | Some evs => Some (Attach rootQuery :: evs)
          | None => None
          end
      | None => Some []
      end
  | None => Some []
  end.

(** A call of [walkTree] on [term] reaches [n]: the term itself, and what
    the calls on the enabled children of an enabled term reach. *)
Inductive visits (h : Heap) (tree : gmap string (list loc)) : loc → loc → Prop :=
  | visits_self term : visits h tree term term
  | visits_child term child n :
      disabled (h term) = false →
      In child (kids h tree term) →
      disabled (h child) = false →
      visits h tree child n →
      visits h tree term n.

(** The root query [rootQuery] is attached with [answer] and [question], and
    the walk of one of its children reaches [n]. *)
Definition walkedUnder (h : Heap) (questionMap : gmap string Question)
    (answerMap : AnswerMap) (tree : gmap string (list loc))
    (rootQuery : loc) (answer : Answer) (question : Question) (n : loc) : Prop :=
  resolveAnswer answerMap h rootQuery = Some answer ∧
  resolveQuestion questionMap (Some answer) = Some question ∧
  ∃ term, In term (kids h tree rootQuery) ∧ visits h tree term n.

(** A node for which a walk writes the collected-children entry. *)
Definition collects (h : Heap) (tree : gmap string (list loc)) (n : loc) : Prop :=
  disabled (h n) = false ∧ kids h tree n ≠ [] ∧
  truthyCategory (category (h n)) = true.

(** ** Heaps and static fields *)

Lemma update_eq h l q : update h l q l = q.
Proof. unfold update. by rewrite Nat.eqb_refl. Qed.

Lemma update_ne h l q l' : l' ≠ l → update h l q l' = h l'.
Proof. unfold update. intros H. apply Nat.eqb_neq in H. by rewrite H. Qed.

Lemma static_eq_refl h : static_eq h h.
Proof. by intros l. Qed.

Lemma static_eq_trans h1 h2 h3 :
  static_eq h1 h2 → static_eq h2 h3 → static_eq h1 h3.
Proof. intros H1 H2 l. by rewrite H1. Qed.

Lemma static_eq_sym h1 h2 : static_eq h1 h2 → static_eq h2 h1.
Proof. intros H l. by rewrite H. Qed.

Lemma static_id h h' l : static_eq h h' → id (h l) = id (h' l).
Proof. intros H. specialize (H l). unfold static in H. congruence. Qed.

Lemma static_disabled h h' l : static_eq h h' → disabled (h l) = disabled (h' l).
Proof. intros H. specialize (H l). unfold static in H. congruence. Qed.

Lemma static_collect h h' l : static_eq h h' → collect (h l) = collect (h' l).
Proof. intros H. specialize (H l). unfold static in H. congruence. Qed.

Lemma static_category h h' l : static_eq h h' → category (h l) = category (h' l).
Proof. intros H. specialize (H l). unfold static in H. congruence. Qed.

Lemma static_answerId h h' l : static_eq h h' → answerId (h l) = answerId (h' l).
Proof. intros H. specialize (H l). unfold static in H. congruence. Qed.

Lemma static_kids h h' tree l : static_eq h h' → kids h tree l = kids h' tree l.
Proof. intros H. unfold kids. by rewrite (static_id h h' l H). Qed.

Lemma static_anyCollected h h' gs :
  static_eq h h' → anyCollected h gs = anyCollected h' gs.
Proof.
  intros H. unfold anyCollected. do 3 f_equal.
  apply List.filter_ext. intros v. by apply static_collect.
Qed.

Lemma static_eq_update h l q :
  static q = static (h l) → static_eq h (update h l q).
Proof.
  intros Hq l'. unfold update. destruct (Nat.eqb_spec l' l); by subst.
Qed.

Lemma applyEvent_static tree s e : static_eq (heap s) (heap (applyEvent tree s e)).
Proof.
  destruct e as [term a q | term | r]; simpl.
  - eapply static_eq_trans; apply static_eq_update; by rewrite ?update_eq.
  - apply static_eq_refl.
  - by apply static_eq_update.
Qed.

Lemma applyEvents_static tree evs : ∀ s,
  static_eq (heap s) (heap (applyEvents tree evs s)).
Proof.
  induction evs as [|e evs IH]; intros s; simpl; [apply static_eq_refl|].
  eapply static_eq_trans; [apply applyEvent_static | apply IH].
Qed.

Lemma applyEvents_app tree evs1 evs2 s :
  applyEvents tree (evs1 ++ evs2) s =
  applyEvents tree evs2 (applyEvents tree evs1 s).
Proof. apply fold_left_app. Qed.

(** ** The operations as event lists *)

Lemma applyEvent_groups tree h s e n :
  static_eq h (heap s) →
  groups (heap s n) = Some (kids h tree n) →
  groups (heap (applyEvent tree s e) n) = Some (kids h tree n).
Proof.
  intros Hst Hg. destruct e as [term a q | term | r]; simpl; [| done |].
  - destruct (Nat.eq_dec n term) as [-> | Hne].
    + rewrite !update_eq. simpl. unfold kids. by rewrite (static_id _ _ term Hst).
    + by rewrite !update_ne.
  - destruct (Nat.eq_dec n r) as [-> | Hne].
    + rewrite update_eq. simpl. by rewrite (static_kids _ _ tree r Hst).
    + by rewrite update_ne.
Qed.

Lemma applyEvents_groups tree h evs : ∀ s n,
  static_eq h (heap s) →
  groups (heap s n) = Some (kids h tree n) →
  groups (heap (applyEvents tree evs s) n) = Some (kids h tree n).
Proof.
  induction evs as [|e evs IH]; intros s n Hst Hg; simpl; [done|].
  apply IH.
  - eapply static_eq_trans; [exact Hst | apply applyEvent_static].
  - by apply applyEvent_groups.
Qed.

Lemma forEach_events {A : Type} h tree (l : list A)
    (body : A → State → option State) (f : A → option (list Event)) :
  (∀ x s, In x l → static_eq h (heap s) →
     body x s = (fun evs => applyEvents tree evs s) <$> f x) →
  ∀ s, static_eq h (heap s) →
    forEach l body s = (fun evs => applyEvents tree evs s) <$> concatEvents l f.
Proof.
  induction l as [|x rest IH]; intros Hbody s Hst; simpl; [done|].
  rewrite (Hbody x s (or_introl eq_refl) Hst).
  destruct (f x) as [e1|]; simpl; [|done].
  rewrite IH.
  - destruct (concatEvents rest f) as [e2|]; simpl; [|done].
    by rewrite applyEvents_app.
  - intros y s' Hy. apply Hbody. by right.
  - eapply static_eq_trans; [exact Hst | apply applyEvents_static].
Qed.

Lemma visitTerm_groups h tree term a q s :
  static_eq h (heap s) →
  groups (heap (visitTerm term a q tree s) term) = Some (kids h tree term).
Proof.
  intros Hst. simpl. rewrite !update_eq. simpl. unfold kids.
  by rewrite (static_id _ _ term Hst).
Qed.

Lemma walkTree_events h tree a q fuel : ∀ term s,
  static_eq h (heap s) →
  walkTree fuel term a q tree s =
  (fun evs => applyEvents tree evs s) <$> walkEvents fuel h tree term a q.
Proof.
  induction fuel as [|fuel IH]; intros term s Hst; [done|].
  cbn [walkTree walkEvents].
  rewrite (visitTerm_groups h tree term a q s Hst).
  set (s1 := visitTerm term a q tree s).
  assert (static_eq h (heap s1)) as Hst1.
  { eapply static_eq_trans; [exact Hst|].
    apply (applyEvent_static tree s (Visit term a q)). }
  cbn [default from_option Datatypes.id].
  rewrite <- (static_disabled _ _ term Hst1).
  destruct (disabled (h term) || Nat.eqb (length (kids h tree term)) 0) eqn:Hstop.
  { done. }
  rewrite (forEach_events h tree (kids h tree term) _
             (fun child => if disabled (h child) then Some []
                           else walkEvents fuel h tree child a q)); [| |done].
  - destruct (concatEvents _ _) as [evs|]; simpl; [|done].
    set (s2 := applyEvents tree evs s1).
    assert (static_eq h (heap s2)) as Hst2.
    { eapply static_eq_trans; [exact Hst1 | apply applyEvents_static]. }
    rewrite <- (static_category _ _ term Hst2).
    destruct (truthyCategory (category (h term))); simpl.
    + f_equal. unfold applyEvents at 1. rewrite fold_left_app. simpl.
      change (fold_left (applyEvent tree) evs (visitTerm term a q tree s))
        with s2.
      assert (groups (heap s2 term) = Some (kids h tree term)) as Hg2.
      { apply applyEvents_groups; [done|]. by apply visitTerm_groups. }
      unfold collectTerm. rewrite Hg2. simpl.
      by rewrite (static_kids _ _ tree term Hst2).
    + f_equal. unfold applyEvents at 1. by rewrite fold_left_app.
  - intros child s' Hin Hst'.
    rewrite <- (static_disabled _ _ child Hst').
    destruct (disabled (h child)); [done|]. by apply IH.
Qed.

Lemma forEach_loop_events {A : Type} h tree (l : list A)
    (body : A → LoopState → option LoopState) (f : A → option (list Event)) :
  (∀ x ls, In x l → static_eq h (heap (loop_state ls)) →
     loop_state <$> body x ls =
     (fun evs => applyEvents tree evs (loop_state ls)) <$> f x) →
  ∀ ls, static_eq h (heap (loop_state ls)) →
    loop_state <$> forEach l body ls =
    (fun evs => applyEvents tree evs (loop_state ls)) <$> concatEvents l f.
Proof.
  induction l as [|x rest IH]; intros Hbody ls Hst; simpl; [done|].
  pose proof (Hbody x ls (or_introl eq_refl) Hst) as Hx.
  destruct (body x ls) as [ls'|], (f x) as [e1|]; simpl in Hx; try done.
  injection Hx as Hx.
  rewrite IH.
  - destruct (concatEvents rest f) as [e2|]; simpl; [|done].
    by rewrite applyEvents_app, Hx.
  - intros y ls'' Hy. apply Hbody. by right.
  - rewrite Hx. eapply static_eq_trans; [exact Hst | apply applyEvents_static].
Qed.

Lemma static_resolveAnswer h h' answerMap r :
  static_eq h h' → resolveAnswer answerMap h r = resolveAnswer answerMap h' r.
Proof. intros H. unfold resolveAnswer. by rewrite (static_answerId _ _ r H). Qed.

Lemma rootStep_events h tree questionMap answerMap fuel r ls :
  static_eq h (heap (loop_state ls)) →
  loop_state <$> rootStep fuel questionMap answerMap tree r ls =
  (fun evs => applyEvents tree evs (loop_state ls)) <$>
    rootEvents fuel h questionMap answerMap tree r.
Proof.
  intros Hst. unfold rootStep, rootEvents.
  rewrite <- (static_resolveAnswer _ _ answerMap r Hst).
  destruct (resolveAnswer answerMap h r) as [a|]; [|done].
  destruct (resolveQuestion questionMap (Some a)) as [q|]; [|done].
  set (s := loop_state ls) in *.
  change (mkState _ (termToAnswerMap s) (answerToTermsMap s)
            (collectedChildrenMap s)) with (attachRoot tree r s).
  set (s1 := attachRoot tree r s).
  assert (static_eq h (heap s1)) as Hst1.
  { eapply static_eq_trans; [exact Hst|].
    apply (applyEvent_static tree s (Attach r)). }
  assert (groups (heap s1 r) = Some (kids h tree r)) as ->.
  { subst s1. simpl. rewrite update_eq. simpl.
    by rewrite (static_kids _ _ tree r Hst). }
  cbn [default from_option Datatypes.id].
  rewrite (forEach_events h tree (kids h tree r) _
             (fun term => walkEvents fuel h tree term a q)); [| |done].
  - by destruct (concatEvents _ _).
  - intros term s' _ Hst'. by apply walkTree_events.
Qed.

(** The state the root loop starts from. *)
Definition initialState (h : Heap) : State := mkState h ∅ ∅ ∅.

(** All events of a run, for the loaded maps and the parent index. *)
Definition allEvents (fuel : nat) (h : Heap)
    (questionMap : gmap string Question) (answerMap : AnswerMap)
    (tree : gmap string (list loc)) : option (list Event) :=
  concatEvents (rootQueriesOf questionMap answerMap)
    (rootEvents fuel h questionMap answerMap tree).

(** The maps the loader returns for a project, and the parent index the
    run builds. *)
Definition sectionMapOf (projectId : string) : gmap string Section_ :=
  (getSectionsQuestionsAndAnswers projectId).1.1.
Definition questionMapOf (projectId : string) : gmap string Question :=
  (getSectionsQuestionsAndAnswers projectId).1.2.
Definition answerMapOf (projectId : string) : AnswerMap :=
  (getSectionsQuestionsAndAnswers projectId).2.
Definition rootsOf (projectId : string) : list loc :=
  rootQueriesOf (questionMapOf projectId) (answerMapOf projectId).
Definition treeOf (projectId : string) (h : Heap) : gmap string (list loc) :=
  (buildQueryTree h
   (findDescendantsForEntities queryRepository (rootsOf projectId))).1.

Lemma getDataCollectorQuery_events fuel projectId h :
  rootsOf projectId ≠ [] →
  (fun res => mkState (finalHeap res) (result_termToAnswerMap res)
                (result_answerToTermsMap res)
                (result_collectedChildrenMap res)) <$>
    getDataCollectorQuery fuel projectId h =
  (fun evs => applyEvents (treeOf projectId h) evs (initialState h)) <$>
    allEvents fuel h (questionMapOf projectId) (answerMapOf projectId)
      (treeOf projectId h).
Proof.
  unfold treeOf, rootsOf, questionMapOf, answerMapOf, allEvents,
    getDataCollectorQuery.
  destruct (getSectionsQuestionsAndAnswers projectId) as [[sm qm] am]; simpl.
  intros Hroots.
  destruct (rootQueriesOf qm am) as [|r0 roots] eqn:Hr; [done|].
  cbn [length Nat.eqb].
  destruct (buildQueryTree h
            (findDescendantsForEntities queryRepository (r0 :: roots)))
    as [tree termMap]; simpl fst.
  pose proof (forEach_loop_events h tree (r0 :: roots)
                (rootStep fuel qm am tree) (rootEvents fuel h qm am tree)
                (fun x ls _ Hst => rootStep_events h tree qm am fuel x ls Hst)
                (mkLoopState (initialState h) [] ∅) (static_eq_refl h)) as H.
  unfold initialState in *.
  destruct (forEach (r0 :: roots) _ _) as [ls|];
    destruct (concatEvents (r0 :: roots) _) as [evs|]; simpl in H; try done.
  injection H as H. simpl. rewrite <- H. by destruct (loop_state ls).
Qed.

(** ** Which events a run produces *)

Lemma concatEvents_In {A : Type} (l : list A) (f : A → option (list Event)) :
  ∀ evs, concatEvents l f = Some evs →
    ∀ e, In e evs ↔ ∃ x ex, In x l ∧ f x = Some ex ∧ In e ex.
Proof.
  induction l as [|x rest IH]; simpl; intros evs Hc e.
  - injection Hc as <-. split; [done | by intros (? & ? & [] & _)].
  - destruct (f x) as [e1|] eqn:Hx; [|done].
    destruct (concatEvents rest f) as [e2|]; [|done].
    injection Hc as <-. rewrite in_app_iff, (IH e2 eq_refl e). split.
    + intros [H | (y & ey & Hy & Hfy & He)].
      * exists x, e1. auto.
      * exists y, ey. auto.
    + intros (y & ey & [<- | Hy] & Hfy & He).
      * left. congruence.
      * right. by exists y, ey.
Qed.

Lemma concatEvents_each {A : Type} (l : list A) (f : A → option (list Event)) :
  ∀ evs, concatEvents l f = Some evs → ∀ x, In x l → is_Some (f x).
Proof.
  induction l as [|y rest IH]; simpl; intros evs Hc x Hx; [done|].
  destruct (f y) as [e1|] eqn:Hy; [|done].
  destruct (concatEvents rest f) as [e2|]; [|done].
  destruct Hx as [<- | Hx]; [by rewrite Hy | by eapply IH].
Qed.

Lemma concatEvents_total {A : Type} (l : list A) (f : A → option (list Event)) :
  (∀ x, In x l → is_Some (f x)) → is_Some (concatEvents l f).
Proof.
  induction l as [|y rest IH]; simpl; intros Hf; [done|].
  destruct (Hf y (or_introl eq_refl)) as [e1 ->].
  destruct IH as [e2 ->]; [|done]. intros x Hx. apply Hf. by right.
Qed.

(** A walk that stops at its term reaches nothing else. *)
Lemma visits_stop h tree term n :
  disabled (h term) || Nat.eqb (length (kids h tree term)) 0 = true →
  visits h tree term n → n = term.
Proof.
  intros Hstop Hv. inversion Hv as [|? child ? Hd Hin _ _]; subst; [done|].
  rewrite Hd in Hstop. simpl in Hstop.
  destruct (kids h tree term); [done | discriminate].
Qed.

Lemma kids_nonempty h tree term :
  Nat.eqb (length (kids h tree term)) 0 = false ↔ kids h tree term ≠ [].
Proof. destruct (kids h tree term); simpl; split; done. Qed.

Lemma walkEvents_Visit h tree a q fuel : ∀ term evs,
  walkEvents fuel h tree term a q = Some evs →
  ∀ n a' q', In (Visit n a' q') evs ↔ a' = a ∧ q' = q ∧ visits h tree term n.
Proof.
  induction fuel as [|fuel IH]; intros term evs Hw n a' q'; [done|].
  cbn [walkEvents] in Hw.
  destruct (disabled (h term) || Nat.eqb (length (kids h tree term)) 0) eqn:Hstop.
  { injection Hw as <-. simpl. split.
    - intros [[= -> -> ->] | []]. repeat split. constructor.
    - intros (-> & -> & Hv). left. by rewrite (visits_stop _ _ _ _ Hstop Hv). }
  apply orb_false_iff in Hstop as [Hd Hk].
  destruct (concatEvents _ _) as [cevs|] eqn:Hc; [|done].
  injection Hw as <-. simpl. rewrite in_app_iff.
  rewrite (concatEvents_In _ _ _ Hc). split.
  - intros [[= -> -> ->] | [(child & ex & Hin & Hf & He) | Ht]].
    + repeat split. constructor.
    + destruct (disabled (h child)) eqn:Hdc; [by injection Hf as <-|].
      apply (IH _ _ Hf) in He as (-> & -> & Hv).
      repeat split. by eapply visits_child.
    + destruct (truthyCategory _); simpl in Ht; [by destruct Ht | done].
  - intros (-> & -> & Hv).
    inversion Hv as [|? child ? _ Hin Hdc Hv']; subst; [by left|].
    right; left.
    destruct (concatEvents_each _ _ _ Hc child Hin) as [ex Hex].
    exists child, ex. split; [done|]. split; [done|].
    rewrite Hdc in Hex. by apply (IH _ _ Hex).
Qed.

Lemma walkEvents_Collect h tree a q fuel : ∀ term evs,
  walkEvents fuel h tree term a q = Some evs →
  ∀ n, In (Collect n) evs ↔ visits h tree term n ∧ collects h tree n.
Proof.
  induction fuel as [|fuel IH]; intros term evs Hw n; [done|].
  cbn [walkEvents] in Hw.
  destruct (disabled (h term) || Nat.eqb (length (kids h tree term)) 0) eqn:Hstop.
  { injection Hw as <-. simpl. split; [by intros [|]|].
    intros (Hv & Hd & Hk & _). rewrite (visits_stop _ _ _ _ Hstop Hv) in *.
    rewrite Hd in Hstop. apply kids_nonempty in Hk. by rewrite Hk in Hstop. }
  apply orb_false_iff in Hstop as [Hd Hk].
  destruct (concatEvents _ _) as [cevs|] eqn:Hc; [|done].
  injection Hw as <-. simpl. rewrite in_app_iff.
  rewrite (concatEvents_In _ _ _ Hc). split.
  - intros [[=] | [(child & ex & Hin & Hf & He) | Ht]].
    + destruct (disabled (h child)) eqn:Hdc; [by injection Hf as <-|].
      apply (IH _ _ Hf) in He as (Hv & Hcol).
      split; [by eapply visits_child | done].
    + destruct (truthyCategory _) eqn:Hcat; simpl in Ht; [|done].
      destruct Ht as [[= <-] | []]. split; [constructor|].
      split; [done|]. split; [by apply kids_nonempty | done].
  - intros (Hv & Hcol). right.
    inversion Hv as [|? child ? _ Hin Hdc Hv']; subst.
    + right. destruct Hcol as (_ & _ & ->). by left.
    + left. destruct (concatEvents_each _ _ _ Hc child Hin) as [ex Hex].
      exists child, ex. split; [done|]. split; [done|].
      rewrite Hdc in Hex. by apply (IH _ _ Hex).
Qed.

Lemma rootEvents_Visit h questionMap answerMap tree fuel r evs :
  rootEvents fuel h questionMap answerMap tree r = Some evs →
  ∀ n a q, In (Visit n a q) evs ↔ walkedUnder h questionMap answerMap tree r a q n.
Proof.
  unfold rootEvents, walkedUnder. intros Hr n a q.
  destruct (resolveAnswer answerMap h r) as [a0|];
    [|injection Hr as <-; split; [done | by intros ([=] & _)]].
  destruct (resolveQuestion questionMap (Some a0)) as [q0|] eqn:Hq;
    [|injection Hr as <-; split; [done|]; intros ([= ->] & Hq' & _);
      by rewrite Hq in Hq'].
  destruct (concatEvents _ _) as [cevs|] eqn:Hc; [|done].
  injection Hr as <-. cbn [In]. rewrite (concatEvents_In _ _ _ Hc). split.
  - intros [[=] | (term & ex & Hin & Hf & He)].
    apply (walkEvents_Visit _ _ _ _ _ _ _ Hf) in He as (-> & -> & Hv).
    split; [done|]. split; [done|]. by exists term.
  - intros ([= ->] & Hq' & term & Hin & Hv). right.
    assert (q = q0) as ->.
    { rewrite Hq in Hq'. by injection Hq'. }
    destruct (concatEvents_each _ _ _ Hc term Hin) as [ex Hex].
    exists term, ex. split; [done|]. split; [done|].
    by apply (walkEvents_Visit _ _ _ _ _ _ _ Hex).
Qed.

Lemma rootEvents_Collect h questionMap answerMap tree fuel r evs :
  rootEvents fuel h questionMap answerMap tree r = Some evs →
  ∀ n, In (Collect n) evs ↔
       (∃ a q, walkedUnder h questionMap answerMap tree r a q n) ∧
       collects h tree n.
Proof.
  unfold rootEvents, walkedUnder. intros Hr n.
  destruct (resolveAnswer answerMap h r) as [a0|];
    [|injection Hr as <-; split; [done | by intros ((? & ? & [=] & _) & _)]].
  destruct (resolveQuestion questionMap (Some a0)) as [q0|] eqn:Hq;
    [|injection Hr as <-; split; [done|];
      intros ((? & ? & [= <-] & Hq' & _) & _); by rewrite Hq in Hq'].
  destruct (concatEvents _ _) as [cevs|] eqn:Hc; [|done].
  injection Hr as <-. cbn [In]. rewrite (concatEvents_In _ _ _ Hc). split.
  - intros [[=] | (term & ex & Hin & Hf & He)].
    apply (walkEvents_Collect _ _ _ _ _ _ _ Hf) in He as (Hv & Hcol).
    split; [|done]. exists a0, q0. split; [done|]. split; [done|]. by exists term.
  - intros ((a & q & [= <-] & Hq' & term & Hin & Hv) & Hcol). right.
    assert (q = q0) as ->.
    { rewrite Hq in Hq'. by injection Hq'. }
    destruct (concatEvents_each _ _ _ Hc term Hin) as [ex Hex].
    exists term, ex. split; [done|]. split; [done|].
    by apply (walkEvents_Collect _ _ _ _ _ _ _ Hex).
Qed.

Lemma allEvents_Visit h questionMap answerMap tree fuel evs :
  allEvents fuel h questionMap answerMap tree = Some evs →
  ∀ n a q, In (Visit n a q) evs ↔
    ∃ r, In r (rootQueriesOf questionMap answerMap) ∧
         walkedUnder h questionMap answerMap tree r a q n.
Proof.
  unfold allEvents. intros Hall n a q. rewrite (concatEvents_In _ _ _ Hall). split.
  - intros (r & ex & Hr & Hf & He). exists r. split; [done|].
    by apply (rootEvents_Visit _ _ _ _ _ _ _ Hf).
  - intros (r & Hr & Hw).
    destruct (concatEvents_each _ _ _ Hall r Hr) as [ex Hex].
    exists r, ex. split; [done|]. split; [done|].
    by apply (rootEvents_Visit _ _ _ _ _ _ _ Hex).
Qed.

Lemma allEvents_Collect h questionMap answerMap tree fuel evs :
  allEvents fuel h questionMap answerMap tree = Some evs →
  ∀ n, In (Collect n) evs ↔
    (∃ r a q, In r (rootQueriesOf questionMap answerMap) ∧
              walkedUnder h questionMap answerMap tree r a q n) ∧
    collects h tree n.
Proof.
  unfold allEvents. intros Hall n. rewrite (concatEvents_In _ _ _ Hall). split.
  - intros (r & ex & Hr & Hf & He).
    apply (rootEvents_Collect _ _ _ _ _ _ _ Hf) in He as ((a & q & Hw) & Hcol).
    split; [|done]. by exists r, a, q.
  - intros ((r & a & q & Hr & Hw) & Hcol).
    destruct (concatEvents_each _ _ _ Hall r Hr) as [ex Hex].
    exists r, ex. split; [done|]. split; [done|].
    apply (rootEvents_Collect _ _ _ _ _ _ _ Hex). split; [|done]. by exists a, q.
Qed.

(** ** What the events write *)

Lemma applyEvent_sortDirection tree s e n :
  sortDirection (heap (applyEvent tree s e) n) =
  match e with
  | Visit term _ question =>
      if Nat.eqb n term then question_sortDirection question
      else sortDirection (heap s n)
  | _ => sortDirection (heap s n)
  end.
Proof.
  destruct e as [term a q | term | r]; simpl; [| done |]; unfold update.
  - destruct (Nat.eqb_spec n term) as [-> | Hne]; [|done].
    by rewrite Nat.eqb_refl.
  - by destruct (Nat.eqb_spec n r) as [-> | Hne].
Qed.

Lemma applyEvents_snoc tree evs e s :
  applyEvents tree (evs ++ [e]) s = applyEvent tree (applyEvents tree evs s) e.
Proof. by rewrite applyEvents_app. Qed.

(** The last walk to reach a node decides its [sortDirection]. *)
Lemma applyEvents_sortDirection tree evs : ∀ s n sd,
  (∃ a q, In (Visit n a q) evs) →
  (∀ a q, In (Visit n a q) evs → question_sortDirection q = sd) →
  sortDirection (heap (applyEvents tree evs s) n) = sd.
Proof.
  induction evs as [|e evs IH] using rev_ind; intros s n sd Hex Hall.
  { by destruct Hex as (a & q & []). }
  rewrite applyEvents_snoc, applyEvent_sortDirection.
  assert ((∀ a q, e ≠ Visit n a q) →
            sortDirection (heap (applyEvents tree evs s) n) = sd) as Hrest.
  { intros Hne. apply IH.
    - destruct Hex as (a & q & Hin). apply in_app_iff in Hin as [Hin | [-> | []]].
      + by exists a, q.
      + by destruct (Hne a q).
    - intros a q Hin. apply (Hall a q), in_app_iff. by left. }
  destruct e as [term a q | term | r]; try (by apply Hrest).
  destruct (Nat.eqb_spec n term) as [-> | Hne].
  - apply (Hall a q), in_app_iff. right. by left.
  - apply Hrest. by intros a' q' [=].
Qed.

Lemma applyEvents_sortDirection_frame tree evs : ∀ s n,
  (∀ a q, ¬ In (Visit n a q) evs) →
  sortDirection (heap (applyEvents tree evs s) n) = sortDirection (heap s n).
Proof.
  induction evs as [|e evs IH]; intros s n Hno; simpl; [done|].
  rewrite IH, applyEvent_sortDirection.
  - destruct e as [term a q | term | r]; try done.
    destruct (Nat.eqb_spec n term) as [-> | Hne]; [|done].
    destruct (Hno a q). by left.
  - intros a q Hin. apply (Hno a q). by right.
Qed.

Lemma applyEvents_termToAnswerMap_Some h tree evs : ∀ s k v,
  static_eq h (heap s) →
  termToAnswerMap (applyEvents tree evs s) !! k = Some v →
  termToAnswerMap s !! k = Some v ∨
  ∃ n q, In (Visit n v q) evs ∧ id (h n) = k.
Proof.
  induction evs as [|e evs IH]; intros s k v Hst Hk; simpl in *; [by left|].
  apply IH in Hk as [Hk | (n & q & Hin & Hid)].
  - destruct e as [term a q | term | r]; simpl in Hk; try by left.
    apply lookup_insert_Some in Hk as [[<- <-] | [_ Hk]]; [|by left].
    right. exists term, q. split; [by left|]. by apply static_id.
  - right. exists n, q. split; [by right | done].
  - eapply static_eq_trans; [exact Hst | apply applyEvent_static].
Qed.

Lemma applyEvents_termToAnswerMap_visited h tree evs : ∀ s n a q,
  static_eq h (heap s) →
  In (Visit n a q) evs →
  ∃ n' a' q', termToAnswerMap (applyEvents tree evs s) !! id (h n) = Some a' ∧
              In (Visit n' a' q') evs ∧ id (h n') = id (h n).
Proof.
  induction evs as [|e evs IH] using rev_ind; intros s n a q Hst Hin; [done|].
  rewrite applyEvents_snoc.
  assert (static_eq h (heap (applyEvents tree evs s))) as Hst'.
  { eapply static_eq_trans; [exact Hst | apply applyEvents_static]. }
  destruct e as [term a0 q0 | term | r].
  - simpl. destruct (decide (id (h term) = id (h n))) as [Heq | Hne].
    + exists term, a0, q0. rewrite <- (static_id _ _ term Hst'), Heq.
      rewrite lookup_insert_eq. split; [done|]. split; [|done].
      apply in_app_iff. right. by left.
    + apply in_app_iff in Hin as [Hin | [[= -> -> ->] | []]]; [|done].
      destruct (IH s n a q Hst Hin) as (n' & a' & q' & Hk & Hin' & Hid).
      exists n', a', q'. rewrite <- (static_id _ _ term Hst').
      rewrite lookup_insert_ne; [|done]. split; [done|]. split; [|done].
      apply in_app_iff. by left.
  - apply in_app_iff in Hin as [Hin | [[=] | []]].
    destruct (IH s n a q Hst Hin) as (n' & a' & q' & Hk & Hin' & Hid).
    exists n', a', q'. split; [done|]. split; [|done]. apply in_app_iff. by left.
  - apply in_app_iff in Hin as [Hin | [[=] | []]].
    destruct (IH s n a q Hst Hin) as (n' & a' & q' & Hk & Hin' & Hid).
    exists n', a', q'. split; [done|]. split; [|done]. apply in_app_iff. by left.
Qed.

Lemma lookup_addOneToMultiMap {V : Type} (m : gmap string (list V)) key v k :
  default [] (addOneToMultiMap m key v !! k) =
  default [] (m !! k) ++ (if decide (k = key) then [v] else []).
Proof.
  unfold addOneToMultiMap. destruct (m !! key) as [vs|] eqn:Hkey.
  - destruct (decide (k = key)) as [-> | Hne].
    + by rewrite lookup_insert_eq, Hkey.
    + rewrite lookup_insert_ne; [|done]. by rewrite app_nil_r.
  - destruct (decide (k = key)) as [-> | Hne].
    + by rewrite lookup_insert_eq, Hkey.
    + rewrite lookup_insert_ne; [|done]. by rewrite app_nil_r.
Qed.

Lemma applyEvents_answerToTermsMap tree evs : ∀ s k n,
  In n (default [] (answerToTermsMap (applyEvents tree evs s) !! k)) ↔
  In n (default [] (answerToTermsMap s !! k)) ∨
  ∃ a q, In (Visit n a q) evs ∧ answer_id a = k.
Proof.
  induction evs as [|e evs IH]; intros s k n; simpl.
  { split; [by left | by intros [? | (? & ? & [] & _)]]. }
  rewrite IH. destruct e as [term a q | term | r]; simpl.
  - rewrite lookup_addOneToMultiMap, in_app_iff. split.
    + intros [[Hin | Hin] | (a' & q' & Hin & Hk)].
      * by left.
      * destruct (decide (k = answer_id a)) as [-> | Hne]; [|done].
        destruct Hin as [<- | []]. right. exists a, q. split; [by left | done].
      * right. exists a', q'. split; [by right | done].
    + intros [Hin | (a' & q' & [[= -> -> ->] | Hin] & Hk)].
      * by left; left.
      * left; right. rewrite decide_True; [by left | done].
      * right. by exists a', q'.
  - split.
    + intros [Hin | (a' & q' & Hin & Hk)]; [by left|].
      right. exists a', q'. split; [by right | done].
    + intros [Hin | (a' & q' & [[=] | Hin] & Hk)]; [by left|].
      right. by exists a', q'.
  - split.
    + intros [Hin | (a' & q' & Hin & Hk)]; [by left|].
      right. exists a', q'. split; [by right | done].
    + intros [Hin | (a' & q' & [[=] | Hin] & Hk)]; [by left|].
      right. by exists a', q'.
Qed.

Lemma applyEvents_collectedChildrenMap_Some h tree evs : ∀ s k b,
  static_eq h (heap s) →
  collectedChildrenMap (applyEvents tree evs s) !! k = Some b →
  collectedChildrenMap s !! k = Some b ∨
  ∃ n, In (Collect n) evs ∧ id (h n) = k ∧ b = anyCollected h (kids h tree n).
Proof.
  induction evs as [|e evs IH]; intros s k b Hst Hk; simpl in *; [by left|].
  apply IH in Hk as [Hk | (n & Hin & Hid & Hb)].
  - destruct e as [term a q | term | r]; simpl in Hk; try by left.
    apply lookup_insert_Some in Hk as [[<- <-] | [_ Hk]]; [|by left].
    right. exists term. split; [by left|]. split; [by apply static_id|].
    by rewrite (static_kids _ _ tree term Hst), (static_anyCollected _ _ _ Hst).
  - right. exists n. split; [by right | done].
  - eapply static_eq_trans; [exact Hst | apply applyEvent_static].
Qed.

Lemma applyEvents_collectedChildrenMap_write h tree evs : ∀ s k v,
  static_eq h (heap s) →
  (∀ n, In (Collect n) evs → id (h n) = k → anyCollected h (kids h tree n) = v) →
  collectedChildrenMap s !! k = Some v ∨ (∃ n, In (Collect n) evs ∧ id (h n) = k) →
  collectedChildrenMap (applyEvents tree evs s) !! k = Some v.
Proof.
  induction evs as [|e evs IH]; intros s k v Hst Hval Hk; simpl.
  { by destruct Hk as [Hk | (n & [] & _)]. }
  apply IH.
  - eapply static_eq_trans; [exact Hst | apply applyEvent_static].
  - intros n Hin. apply Hval. by right.
  - destruct e as [term a q | term | r]; simpl.
    + destruct Hk as [Hk | (n & [[=] | Hin] & Hid)]; [by left|].
      right. by exists n.
    + destruct (decide (id (h term) = k)) as [Heq | Hne].
      * left. rewrite <- (static_id _ _ term Hst), Heq, lookup_insert_eq.
        f_equal.
        rewrite <- (static_kids _ _ tree term Hst),
          <- (static_anyCollected _ _ _ Hst).
        apply Hval; [by left | done].
      * rewrite <- (static_id _ _ term Hst).
        destruct Hk as [Hk | (n & [[= ->] | Hin] & Hid)].
        -- left. by rewrite lookup_insert_ne.
        -- done.
        -- right. by exists n.
    + destruct Hk as [Hk | (n & [[=] | Hin] & Hid)]; [by left|].
      right. by exists n.
Qed.

(** ** The parent index *)

(** [term.parent?.id] is truthy: the node has a resolvable parent id. *)
Definition hasParent (h : Heap) (term : loc) : bool :=
  match parentId (h term) with
  | Some pid => truthy pid
  | None => false
  end.

(** [term] has the resolvable parent id [k]. *)
Definition childOf (h : Heap) (k : string) (term : loc) : bool :=
  match parentId (h term) with
  | Some pid => truthy pid && String.eqb pid k
  | None => false
  end.

(** [term] has a resolvable parent id and the id [k]. *)
Definition indexedAs (h : Heap) (k : string) (term : loc) : bool :=
  hasParent h term && String.eqb (id (h term)) k.

Lemma buildQueryTree_fold_tree h terms : ∀ acc k,
  default [] ((fold_left (buildQueryTree_step h) terms acc).1 !! k) =
  default [] (acc.1 !! k) ++ List.filter (childOf h k) terms.
Proof.
  induction terms as [|t rest IH]; intros acc k; simpl.
  { by rewrite app_nil_r. }
  rewrite IH. unfold buildQueryTree_step, childOf.
  destruct (parentId (h t)) as [pid|]; [|done].
  destruct (truthy pid); simpl; [|done].
  rewrite lookup_addOneToMultiMap.
  destruct (String.eqb_spec pid k) as [-> | Hne].
  - rewrite decide_True; [|done]. by rewrite <- app_assoc.
  - rewrite decide_False; [|congruence]. by rewrite app_nil_r.
Qed.

Lemma buildQueryTree_fold_nonempty h terms : ∀ acc,
  (∀ k l, acc.1 !! k = Some l → l ≠ []) →
  ∀ k l, (fold_left (buildQueryTree_step h) terms acc).1 !! k = Some l → l ≠ [].
Proof.
  induction terms as [|t rest IH]; intros acc Hacc; simpl; [done|].
  apply IH. unfold buildQueryTree_step.
  destruct (parentId (h t)) as [pid|]; [|done].
  destruct (truthy pid); simpl; [|done].
  intros k l. unfold addOneToMultiMap.
  destruct (acc.1 !! pid) as [vs|];
    (intros [[_ <-] | [_ Hk]]%lookup_insert_Some; [by destruct vs || done | by eapply Hacc]).
Qed.

Lemma buildQueryTree_fold_termMap h terms : ∀ acc k,
  (fold_left (buildQueryTree_step h) terms acc).2 !! k =
  match last (List.filter (indexedAs h k) terms) with
  | Some t => Some t
  | None => acc.2 !! k
  end.
Proof.
  induction terms as [|t rest IH]; intros acc k; simpl; [done|].
  rewrite IH. unfold buildQueryTree_step, indexedAs, hasParent.
  destruct (parentId (h t)) as [pid|]; simpl; [|done].
  destruct (truthy pid); simpl; [|done].
  destruct (String.eqb_spec (id (h t)) k) as [-> | Hne].
  - rewrite last_cons, lookup_insert_eq. by destruct (last _).
  - by rewrite lookup_insert_ne.
Qed.

Lemma childOf_hasParent h term :
  hasParent h term = true ↔ ∃ k, childOf h k term = true.
Proof.
  unfold hasParent, childOf. destruct (parentId (h term)) as [pid|].
  - split.
    + intros Hp. exists pid. by rewrite Hp, String.eqb_refl.
    + intros (k & Hk). by apply andb_true_iff in Hk as [? _].
  - split; [done | by intros (? & ?)].
Qed.

Lemma buildQueryTree_skip h t : ∀ l1 l2 acc,
  hasParent h t = false →
  fold_left (buildQueryTree_step h) (l1 ++ t :: l2) acc =
  fold_left (buildQueryTree_step h) (l1 ++ l2) acc.
Proof.
  intros l1 l2 acc Ht. rewrite !fold_left_app. simpl. f_equal.
  unfold buildQueryTree_step. unfold hasParent in Ht.
  destruct (parentId (h t)) as [pid|]; [|done]. by rewrite Ht.
Qed.

(** The children listed for an id come from the parent index alone. *)
Lemma kids_by_id h tree n n' : id (h n) = id (h n') → kids h tree n = kids h tree n'.
Proof. unfold kids. by intros ->. Qed.

Lemma anyCollected_true h gs :
  anyCollected h gs = true ↔ ∃ c, In c gs ∧ collect (h c) = true.
Proof.
  unfold anyCollected. rewrite negb_true_iff, Nat.eqb_neq. split.
  - intros Hlen. destruct (List.filter _ gs) as [|c l] eqn:Hf; [done|].
    exists c. apply (filter_In (fun v => collect (h v))). rewrite Hf. by left.
  - intros (c & Hin & Hc) Hlen.
    assert (In c (List.filter (fun v => collect (h v)) gs)) as Hin'
      by (by apply filter_In).
    by destruct (List.filter _ gs).
Qed.

(** ** An example project *)

Definition blankQuery : Query :=
  mkQuery "" false false None None None None All Ascending.

(** One answer with root query 0.  Below the root: a disabled criterion 1
    with the child 2, and an enabled criterion 3 with a disabled child 4 and
    an enabled child 5; node 6 has no parent.  Every node is authored
    ascending, the question sorts descending. *)
Definition exampleHeap : Heap :=
  fun l =>
    match l with
    | 0 => mkQuery "r" false false None None (Some "a1") None Any Ascending
    | 1 => mkQuery "c1" true false (Some "r") None None (Some Measurement) All Ascending
    | 2 => mkQuery "g1" false true (Some "c1") None None (Some Measurement) All Ascending
    | 3 => mkQuery "c2" false false (Some "r") None None (Some Measurement) All Ascending
    | 4 => mkQuery "g2" true true (Some "c2") None None (Some Measurement) All Ascending
    | 5 => mkQuery "g3" false false (Some "c2") None None (Some Measurement) All Ascending
    | 6 => mkQuery "o" false false None None None (Some Procedure) All Ascending
    | _ => blankQuery
    end.

Definition exampleQuestion : Question :=
  mkQuestion "q1" false SingleAnswer None Descending.

Definition exampleAnswer : Answer :=
  mkAnswer "a1" false (Some "q1") (Some 0).

Definition exampleLoader (projectId : string)
    : gmap string Section_ * gmap string Question * AnswerMap :=
  (∅, {["q1" := exampleQuestion]}, [("a1", exampleAnswer)]).

Definition exampleRepository : QueryRepository :=
  mkQueryRepository (fun rootQueries => [1; 2; 3; 4; 5; 6]).

(** The loader as the source stubs it: three empty maps. *)
Definition stubLoader (projectId : string)
    : gmap string Section_ * gmap string Question * AnswerMap :=
  (∅, ∅, []).

(** A hidden answer of a single-answer question. *)
Definition hiddenAnswer : Answer :=
  mkAnswer "a2" true (Some "q1") (Some 7).

(** ** The root set *)

(** The answer is hidden and refers to a question that the question map
    does not resolve to the type MultipleChoiceSingleAnswer. *)
Definition excluded (questionMap : gmap string Question) (answer : Answer)
    : bool :=
  match questionId answer with
  | Some qid =>
      hidden answer &&
      negb (match questionMap !! qid with
            | Some question => isMultipleChoiceSingleAnswer (questionType question)
            | None => false
            end)
  | None => false
  end.

Lemma selectQuery_excluded questionMap answer :
  selectQuery questionMap answer =
  if excluded questionMap answer then None else query answer.
Proof.
  unfold selectQuery, excluded.
  destruct (questionId answer) as [qid|]; [|done].
  destruct (hidden answer); [|done].
  destruct (questionMap !! qid) as [question|]; [|done].
  by destruct (isMultipleChoiceSingleAnswer _).
Qed.

Lemma excluded_iff questionMap answer :
  excluded questionMap answer = true ↔
  hidden answer = true ∧
  ∃ qid, questionId answer = Some qid ∧
         questionType <$> questionMap !! qid ≠ Some MultipleChoiceSingleAnswer.
Proof.
  unfold excluded. destruct (questionId answer) as [qid|].
  - rewrite andb_true_iff, negb_true_iff. split.
    + intros [Hh Ht]. split; [done|]. exists qid. split; [done|].
      destruct (questionMap !! qid) as [question|]; [|done]. simpl.
      intros [= Heq]. by rewrite Heq in Ht.
    + intros [Hh (qid' & [= <-] & Ht)]. split; [done|].
      destruct (questionMap !! qid) as [question|]; [|done]. simpl in Ht.
      destruct (questionType question); try done.
  - split; [done | by intros [_ (? & [=] & _)]].
Qed.

(** ** Theorems about the root set and the parent index *)

(** C1: the callback keeps the query of an answer exactly when the answer
    has one and is not a hidden answer with a question reference whose
    question, looked up by id in the question map, has a type other than
    MultipleChoiceSingleAnswer (an id the map does not hold gives no type);
    the root set collects the kept queries.  In particular a hidden answer
    whose question resolves to another type is left out, and a visible
    answer always contributes its query. *)
Theorem root_inclusion_rule (questionMap : gmap string Question)
    (answerMap : AnswerMap) :
  (∀ answer q,
     selectQuery questionMap answer = Some q ↔
     query answer = Some q ∧
     ¬ (hidden answer = true ∧
        ∃ qid, questionId answer = Some qid ∧
               questionType <$> questionMap !! qid ≠
               Some MultipleChoiceSingleAnswer)) ∧
  (∀ q,
     In q (rootQueriesOf questionMap answerMap) ↔
     ∃ answer, In answer (answerMap_values answerMap) ∧
               selectQuery questionMap answer = Some q) ∧
  (∀ answer qid question,
     hidden answer = true → questionId answer = Some qid →
     questionMap !! qid = Some question →
     questionType question ≠ MultipleChoiceSingleAnswer →
     selectQuery questionMap answer = None) ∧
  (∀ answer, hidden answer = false →
     selectQuery questionMap answer = query answer).
Proof.
  split; [|split; [|split]].
  - intros answer q. rewrite selectQuery_excluded, <- excluded_iff.
    destruct (excluded questionMap answer); split; try done.
    + by intros [_ []].
    + by intros [? _].
  - intros q. unfold rootQueriesOf.
    rewrite <- list_elem_of_In, list_elem_of_omap.
    by setoid_rewrite list_elem_of_In.
  - intros answer qid question Hh Hq Hm Ht. unfold selectQuery.
    rewrite Hq, Hh, Hm. by destruct (questionType question).
  - intros answer Hh. unfold selectQuery. rewrite Hh.
    by destruct (questionId answer).
Qed.

Lemma root_inclusion_rule_witness :
  selectQuery {["q1" := exampleQuestion]} hiddenAnswer = None ∧
  selectQuery {["q1" := exampleQuestion]} exampleAnswer = Some 0.
Proof.
  pose proof (root_inclusion_rule {["q1" := exampleQuestion]}
                [("a1", exampleAnswer)]) as (_ & _ & Hhidden & Hvisible).
  split.
  - apply (Hhidden hiddenAnswer "q1" exampleQuestion);
      [reflexivity | reflexivity | reflexivity | discriminate].
  - apply (Hvisible exampleAnswer). reflexivity.
Defined.

(** C8: the parent index lists under each id exactly the returned nodes with
    that resolvable parent id, in the order returned, and has no empty
    entry; the lookup map sends an id to the last returned node that has a
    resolvable parent id and that id, so to the node itself when no other
    returned node shares its id.  A node without a resolvable parent id
    leaves both maps as they are without it; the function is total. *)
Theorem buildQueryTree_contents (h : Heap) (terms : list loc) :
  let tree := (buildQueryTree h terms).1 in
  let termMap := (buildQueryTree h terms).2 in
  (∀ k, default [] (tree !! k) = List.filter (childOf h k) terms) ∧
  (∀ k l, tree !! k = Some l → l ≠ []) ∧
  (∀ t, (∃ k, In t (default [] (tree !! k))) ↔
        In t terms ∧ hasParent h t = true) ∧
  (∀ k, termMap !! k = last (List.filter (indexedAs h k) terms)) ∧
  (∀ k t, termMap !! k = Some t →
          In t terms ∧ hasParent h t = true ∧ id (h t) = k) ∧
  (∀ t, In t terms → hasParent h t = true →
        (∀ t', In t' terms → id (h t') = id (h t) → t' = t) →
        termMap !! id (h t) = Some t) ∧
  (∀ t l1 l2, hasParent h t = false →
        buildQueryTree h (l1 ++ t :: l2) = buildQueryTree h (l1 ++ l2)).
Proof.
  intros tree termMap. subst tree termMap. unfold buildQueryTree.
  assert (∀ k, (fold_left (buildQueryTree_step h) terms (∅, ∅)).2 !! k =
               last (List.filter (indexedAs h k) terms)) as HtermMap.
  { intros k. rewrite buildQueryTree_fold_termMap. simpl.
    rewrite lookup_empty. by destruct (last _). }
  assert (∀ k t, last (List.filter (indexedAs h k) terms) = Some t →
                 In t terms ∧ hasParent h t = true ∧ id (h t) = k) as Hlast.
  { intros k t (l' & Hl')%last_Some.
    assert (In t (List.filter (indexedAs h k) terms)) as Hin.
    { rewrite Hl'. apply in_app_iff. right. by left. }
    apply filter_In in Hin as [Hin Hidx]. unfold indexedAs in Hidx.
    apply andb_true_iff in Hidx as [Hp Hid]. by apply String.eqb_eq in Hid. }
  repeat split.
  - intros k. by rewrite buildQueryTree_fold_tree.
  - apply buildQueryTree_fold_nonempty. intros k l. simpl. by rewrite lookup_empty.
  - destruct H as (k & Hk). rewrite buildQueryTree_fold_tree in Hk.
    simpl in Hk. rewrite lookup_empty in Hk. by apply filter_In in Hk as [? _].
  - destruct H as (k & Hk). rewrite buildQueryTree_fold_tree in Hk.
    simpl in Hk. rewrite lookup_empty in Hk. apply filter_In in Hk as [_ Hk].
    apply childOf_hasParent. by exists k.
  - intros [Hin (k & Hk)%childOf_hasParent]. exists k.
    rewrite buildQueryTree_fold_tree. simpl. rewrite lookup_empty. simpl.
    by apply filter_In.
  - exact HtermMap.
  - rewrite HtermMap in H. by apply Hlast in H as (? & _ & _).
  - rewrite HtermMap in H. by apply Hlast in H as (_ & ? & _).
  - rewrite HtermMap in H. by apply Hlast in H as (_ & _ & ?).
  - intros t Hin Hp Huniq. rewrite HtermMap.
    assert (In t (List.filter (indexedAs h (id (h t))) terms)) as Hin'.
    { apply filter_In. split; [done|]. unfold indexedAs.
      by rewrite Hp, String.eqb_refl. }
    destruct (last _) as [t'|] eqn:Hl.
    + f_equal. apply Hlast in Hl as (Hin'' & _ & Hid). by apply Huniq.
    + apply last_None in Hl. by rewrite Hl in Hin'.
  - intros t l1 l2 Ht. by apply buildQueryTree_skip.
Qed.

Lemma buildQueryTree_contents_witness :
  (buildQueryTree exampleHeap [1; 2; 3; 4; 5; 6]).1 !! "r" = Some [1; 3] ∧
  (buildQueryTree exampleHeap [1; 2; 3; 4; 5; 6]).2 !! "g1" = Some 2 ∧
  buildQueryTree exampleHeap ([1; 2; 3; 4; 5] ++ 6 :: []) =
  buildQueryTree exampleHeap ([1; 2; 3; 4; 5] ++ []).
Proof.
  pose proof (buildQueryTree_contents exampleHeap [1; 2; 3; 4; 5; 6])
    as (Htree & Hne & _ & _ & _ & Hmap & Hskip).
  split; [|split].
  - specialize (Htree "r"). specialize (Hne "r").
    destruct ((buildQueryTree exampleHeap [1; 2; 3; 4; 5; 6]).1 !! "r")
      as [l|]; simpl in Htree.
    + by rewrite Htree.
    + discriminate Htree.
  - apply (Hmap 2).
    + simpl. tauto.
    + reflexivity.
    + intros t' Hin Hid. simpl in Hin.
      destruct Hin as [<- | [<- | [<- | [<- | [<- | [<- | []]]]]]];
        try reflexivity; discriminate Hid.
  - apply (Hskip 6). reflexivity.
Defined.

(** ** Theorems about a run *)

Lemma visits_disabled_below h tree term n :
  visits h tree term n → n = term ∨ disabled (h n) = false.
Proof.
  induction 1 as [term | term child n Hd Hin Hdc Hv IH]; [by left|].
  right. by destruct IH as [-> | IH].
Qed.

(** A run that returns has applied the events of its root loop to the
    initial state. *)
Lemma run_events fuel projectId h res :
  getDataCollectorQuery fuel projectId h = Some res →
  ∃ evs,
    allEvents fuel h (questionMapOf projectId) (answerMapOf projectId)
      (treeOf projectId h) = Some evs ∧
    mkState (finalHeap res) (result_termToAnswerMap res)
      (result_answerToTermsMap res) (result_collectedChildrenMap res) =
    applyEvents (treeOf projectId h) evs (initialState h).
Proof.
  intros Hrun. destruct (rootsOf projectId) as [|r0 rs] eqn:Hroots.
  - exists []. unfold allEvents.
    unfold rootsOf in Hroots. rewrite Hroots. split; [done|].
    unfold getDataCollectorQuery, questionMapOf, answerMapOf in *.
    destruct (getSectionsQuestionsAndAnswers projectId) as [[sm qm] am].
    simpl in Hroots. rewrite Hroots in Hrun. simpl in Hrun.
    by injection Hrun as <-.
  - pose proof (getDataCollectorQuery_events fuel projectId h) as H.
    rewrite Hrun, Hroots in H. specialize (H ltac:(done)). simpl in H.
    destruct (allEvents _ _ _ _ _) as [evs|]; [|done].
    injection H as H. by exists evs.
Qed.

(** C6: with an empty root set the run returns, whatever the fuel, the
    undefined tree, empty index maps, an empty term list and an empty
    lookup map, leaves the heap as it was and has made no call to the
    repository. *)
Theorem empty_root_set fuel projectId h :
  rootsOf projectId = [] →
  getDataCollectorQuery fuel projectId h =
  Some (mkResult None ∅ ∅ (answerMapOf projectId) [] ∅ ∅
          (sectionMapOf projectId) h []).
Proof.
  unfold rootsOf, getDataCollectorQuery, sectionMapOf, questionMapOf,
answerMapOf.
  destruct (getSectionsQuestionsAndAnswers projectId) as [[sm qm] am].
  simpl. by intros ->.
Qed.

(** C2, amended: a node reached by the walk of a child of an attached root
    query ends with the [sortDirection] of the question of that root,
    whatever it carried before, provided the roots that reach it agree on
    the direction; a node that no walk reaches keeps its value. *)
Theorem walk_sets_sortDirection fuel projectId h res :
  getDataCollectorQuery fuel projectId h = Some res →
  ∀ n,
    (∀ sd,
       (∃ r a q, In r (rootsOf projectId) ∧
                 walkedUnder h (questionMapOf projectId) (answerMapOf projectId)
                   (treeOf projectId h) r a q n) →
       (∀ r a q, In r (rootsOf projectId) →
                 walkedUnder h (questionMapOf projectId) (answerMapOf projectId)
                   (treeOf projectId h) r a q n →
                 question_sortDirection q = sd) →
       sortDirection (finalHeap res n) = sd) ∧
    ((∀ r a q, In r (rootsOf projectId) →
               ¬ walkedUnder h (questionMapOf projectId) (answerMapOf projectId)
                   (treeOf projectId h) r a q n) →
     sortDirection (finalHeap res n) = sortDirection (h n)).
Proof.
  intros Hrun n. destruct (run_events _ _ _ _ Hrun) as (evs & Hall & Hres).
  assert (finalHeap res = heap (applyEvents (treeOf projectId h) evs
                                  (initialState h))) as ->
    by by rewrite <- Hres.
  split.
  - intros sd (r & a & q & Hr & Hw) Hsame.
    apply applyEvents_sortDirection.
    + exists a, q. apply (allEvents_Visit _ _ _ _ _ _ Hall). by exists r.
    + intros a' q' Hin.
      apply (allEvents_Visit _ _ _ _ _ _ Hall) in Hin as (r' & Hr' & Hw').
      by apply (Hsame r' a' q').
  - intros Hnone. rewrite applyEvents_sortDirection_frame; [done|].
    intros a q Hin.
    apply (allEvents_Visit _ _ _ _ _ _ Hall) in Hin as (r & Hr & Hw).
    by apply (Hnone r a q).
Qed.

(** C4, amended: an enabled node reached by a walk, with a category that
    passes the truthiness test and at least one child in the parent index,
    has an entry under its id that is true exactly when one of its direct
    children has [collect] set; an id with no children in the parent index
    has no entry. *)
Theorem collected_children_entry fuel projectId h res :
  getDataCollectorQuery fuel projectId h = Some res →
  (∀ n,
     (∃ r a q, In r (rootsOf projectId) ∧
               walkedUnder h (questionMapOf projectId) (answerMapOf projectId)
                 (treeOf projectId h) r a q n) →
     disabled (h n) = false →
     truthyCategory (category (h n)) = true →
     kids h (treeOf projectId h) n ≠ [] →
     ∃ b, result_collectedChildrenMap res !! id (h n) = Some b ∧
          (b = true ↔
           ∃ c, In c (kids h (treeOf projectId h) n) ∧ collect (h c) = true)) ∧
  (∀ n, kids h (treeOf projectId h) n = [] →
        result_collectedChildrenMap res !! id (h n) = None).
Proof.
  intros Hrun. destruct (run_events _ _ _ _ Hrun) as (evs & Hall & Hres).
  assert (result_collectedChildrenMap res =
          collectedChildrenMap (applyEvents (treeOf projectId h) evs
                                  (initialState h))) as ->
    by by rewrite <- Hres.
  split.
  - intros n Hw Hd Hcat Hk.
    exists (anyCollected h (kids h (treeOf projectId h) n)).
    split; [|apply anyCollected_true].
    apply (applyEvents_collectedChildrenMap_write h); [apply static_eq_refl | |].
    + intros n' _ Hid. by rewrite (kids_by_id _ _ _ _ Hid).
    + right. exists n. split; [|done].
      by apply (allEvents_Collect _ _ _ _ _ _ Hall).
  - intros n Hk.
    destruct (collectedChildrenMap _ !! id (h n)) as [b|] eqn:Hb; [|done].
    apply (applyEvents_collectedChildrenMap_Some h) in Hb
      as [Hb | (n' & Hin & Hid & _)]; [done | | apply static_eq_refl].
    apply (allEvents_Collect _ _ _ _ _ _ Hall) in Hin as (_ & _ & Hk' & _).
    by rewrite (kids_by_id _ _ _ _ Hid) in Hk'.
Qed.

(** C5, amended: a disabled node that is a direct child of an attached
    root query is registered in the term→answer map and listed under the
    answer of that root, and the walk started on it reaches no other node.
    The two maps hold nothing but nodes reached by a walk, and a walk
    reaches a node other than its start only if that node is enabled: a
    disabled node deeper in the tree is passed over with all below it. *)
Theorem disabled_term_registration fuel projectId h res :
  getDataCollectorQuery fuel projectId h = Some res →
  (∀ r a q term,
     In r (rootsOf projectId) →
     resolveAnswer (answerMapOf projectId) h r = Some a →
     resolveQuestion (questionMapOf projectId) (Some a) = Some q →
     In term (kids h (treeOf projectId h) r) →
     disabled (h term) = true →
     is_Some (result_termToAnswerMap res !! id (h term)) ∧
     In term (default [] (result_answerToTermsMap res !! answer_id a)) ∧
     (∀ n, visits h (treeOf projectId h) term n → n = term)) ∧
  (∀ k n,
     In n (default [] (result_answerToTermsMap res !! k)) →
     ∃ r a q, In r (rootsOf projectId) ∧
              walkedUnder h (questionMapOf projectId) (answerMapOf projectId)
                (treeOf projectId h) r a q n ∧
              answer_id a = k) ∧
  (∀ k v,
     result_termToAnswerMap res !! k = Some v →
     ∃ r q n, In r (rootsOf projectId) ∧
              walkedUnder h (questionMapOf projectId) (answerMapOf projectId)
                (treeOf projectId h) r v q n ∧
              id (h n) = k) ∧
  (∀ term n, visits h (treeOf projectId h) term n →
             n = term ∨ disabled (h n) = false) ∧
  (∀ k n,
     In n (default [] (result_answerToTermsMap res !! k)) →
     disabled (h n) = true →
     ∃ r a, In r (rootsOf projectId) ∧
            resolveAnswer (answerMapOf projectId) h r = Some a ∧
            answer_id a = k ∧
            In n (kids h (treeOf projectId h) r)).
Proof.
  intros Hrun. destruct (run_events _ _ _ _ Hrun) as (evs & Hall & Hres).
  assert (result_termToAnswerMap res =
          termToAnswerMap (applyEvents (treeOf projectId h) evs
                             (initialState h))) as ->
    by by rewrite <- Hres.
  assert (result_answerToTermsMap res =
          answerToTermsMap (applyEvents (treeOf projectId h) evs
                              (initialState h))) as ->
    by by rewrite <- Hres.
  assert (∀ k n,
            In n (default [] (answerToTermsMap
                                (applyEvents (treeOf projectId h) evs
                                   (initialState h)) !! k)) →
            ∃ r a q, In r (rootsOf projectId) ∧
                     walkedUnder h (questionMapOf projectId)
                       (answerMapOf projectId) (treeOf projectId h) r a q n ∧
                     answer_id a = k) as Hlisted.
  { intros k n Hin.
    apply applyEvents_answerToTermsMap in Hin as [Hin | (a & q & Hin & Hk)].
    { simpl in Hin. by rewrite lookup_empty in Hin. }
    apply (allEvents_Visit _ _ _ _ _ _ Hall) in Hin as (r & Hr & Hw).
    by exists r, a, q. }
  split; [|split; [|split; [|split]]].
  - intros r a q term Hr Ha Hq Hterm Hd.
    assert (In (Visit term a q) evs) as Hin.
    { apply (allEvents_Visit _ _ _ _ _ _ Hall). exists r. split; [done|].
      split; [done|]. split; [done|]. exists term. split; [done | constructor]. }
    split; [|split].
    + destruct (applyEvents_termToAnswerMap_visited h (treeOf projectId h)
                  evs (initialState h) term a q (static_eq_refl h) Hin)
        as (n' & a' & q' & Hk & _). by rewrite Hk.
    + apply applyEvents_answerToTermsMap. right. by exists a, q.
    + intros n Hv. apply (visits_stop h (treeOf projectId h) term n); [|done].
      by rewrite Hd.
  - exact Hlisted.
  - intros k v Hk.
    apply (applyEvents_termToAnswerMap_Some h) in Hk
      as [Hk | (n & q & Hin & Hid)]; [done | | apply static_eq_refl].
    apply (allEvents_Visit _ _ _ _ _ _ Hall) in Hin as (r & Hr & Hw).
    by exists r, q, n.
  - intros term n. apply visits_disabled_below.
  - intros k n Hin Hd.
    destruct (Hlisted k n Hin)
      as (r & a & q & Hr & (Ha & _ & term & Hterm & Hv) & Hk).
    exists r, a. repeat (split; [done|]).
    destruct (visits_disabled_below _ _ _ _ Hv) as [-> | Hen]; [done|].
    by rewrite Hen in Hd.
Qed.

(** ** Termination *)

(** A rank on the nodes that decreases along the parent index, from an
    enabled node to each of its enabled children. *)
Definition decreasing (h : Heap) (tree : gmap string (list loc))
    (rank : loc → nat) : Prop :=
  ∀ term child,
    disabled (h term) = false → In child (kids h tree term) →
    disabled (h child) = false → rank child < rank term.

Lemma concatEvents_ext {A : Type} (l : list A) (f g : A → option (list Event)) :
  (∀ x ex, In x l → f x = Some ex → g x = Some ex) →
  ∀ evs, concatEvents l f = Some evs → concatEvents l g = Some evs.
Proof.
  induction l as [|x rest IH]; intros Hfg evs; simpl; [done|].
  destruct (f x) as [e1|] eqn:Hx; [|done].
  destruct (concatEvents rest f) as [e2|] eqn:Hrest; [|done].
  intros [= <-]. rewrite (Hfg x e1 (or_introl eq_refl) Hx).
  rewrite (IH (fun y ey Hy => Hfg y ey (or_intror Hy)) e2 eq_refl). done.
Qed.

(** More fuel does not change the events of a walk that returns. *)
Lemma walkEvents_fuel_mono h tree a q fuel : ∀ fuel' term evs,
  fuel ≤ fuel' →
  walkEvents fuel h tree term a q = Some evs →
  walkEvents fuel' h tree term a q = Some evs.
Proof.
  induction fuel as [|fuel IH]; intros fuel' term evs Hle Hw; [done|].
  destruct fuel' as [|fuel']; [lia|].
  cbn [walkEvents] in *.
  destruct (disabled (h term) || Nat.eqb (length (kids h tree term)) 0); [done|].
  destruct (concatEvents (kids h tree term) _) as [cevs|] eqn:Hc; [|done].
  erewrite concatEvents_ext; [exact Hw | | exact Hc].
  intros child ex _. simpl.
  destruct (disabled (h child)); [done|]. apply IH. lia.
Qed.

(** A walk returns when the fuel exceeds the rank of its term. *)
Lemma walkEvents_terminates h tree a q rank :
  decreasing h tree rank →
  ∀ fuel term, rank term < fuel → is_Some (walkEvents fuel h tree term a q).
Proof.
  intros Hdec. induction fuel as [|fuel IH]; intros term Hrank; [lia|].
  cbn [walkEvents].
  destruct (disabled (h term) || Nat.eqb (length (kids h tree term)) 0)
    eqn:Hstop; [done|].
  apply orb_false_iff in Hstop as [Hd _].
  destruct (concatEvents_total (kids h tree term)
              (fun child => if disabled (h child) then Some []
                            else walkEvents fuel h tree child a q))
    as [cevs ->]; [|done].
  intros child Hin. destruct (disabled (h child)) eqn:Hdc; [done|].
  apply IH. specialize (Hdec term child Hd Hin Hdc). lia.
Qed.

Lemma walkTree_terminates h tree a q rank s :
  decreasing h tree rank → static_eq h (heap s) →
  ∀ fuel term, rank term < fuel → is_Some (walkTree fuel term a q tree s).
Proof.
  intros Hdec Hst fuel term Hrank.
  rewrite (walkTree_events h tree a q fuel term s Hst).
  by destruct (walkEvents_terminates h tree a q rank Hdec fuel term Hrank)
    as [evs ->].
Qed.

Lemma rank_le_list_max (rank : loc → nat) (l : list loc) x :
  In x l → rank x ≤ list_max (map rank l).
Proof.
  intros Hin.
  assert (Forall (fun k => k ≤ list_max (map rank l)) (map rank l)) as Hall
    by by apply list_max_le.
  rewrite List.Forall_forall in Hall. apply Hall. by apply in_map.
Qed.

(** When the parent index is well founded below the enabled nodes, some
    fuel makes [getDataCollectorQuery] return. *)
Lemma getDataCollectorQuery_terminates projectId h rank :
  decreasing h (treeOf projectId h) rank →
  ∃ fuel, is_Some (getDataCollectorQuery fuel projectId h).
Proof.
  intros Hdec.
  set (tree := treeOf projectId h) in *.
  set (starts := flat_map (kids h tree) (rootsOf projectId)).
  exists (S (list_max (map rank starts))).
  assert (rootsOf projectId = [] ∨ rootsOf projectId ≠ []) as [Hroots | Hroots]
    by (destruct (rootsOf projectId); [by left | by right]).
  { unfold getDataCollectorQuery.
    unfold rootsOf, questionMapOf, answerMapOf in Hroots.
    destruct (getSectionsQuestionsAndAnswers projectId) as [[sm qm] am].
    simpl in Hroots. by rewrite Hroots. }
  pose proof (getDataCollectorQuery_events
                (S (list_max (map rank starts))) projectId h Hroots) as H.
  fold tree in H.
  destruct (concatEvents_total (rootsOf projectId)
              (rootEvents (S (list_max (map rank starts))) h
                 (questionMapOf projectId) (answerMapOf projectId) tree))
    as [evs Hevs].
  { intros r Hr. unfold rootEvents.
    destruct (resolveAnswer _ h r) as [a|]; [|done].
    destruct (resolveQuestion _ (Some a)) as [q|]; [|done].
    destruct (concatEvents_total (kids h tree r)
                (fun term => walkEvents (S (list_max (map rank starts))) h
                               tree term a q)) as [cevs ->]; [|done].
    intros term Hterm. apply (walkEvents_terminates h tree a q rank Hdec).
    assert (In term starts) as Hin.
    { apply in_flat_map. by exists r. }
    pose proof (rank_le_list_max rank starts term Hin). lia. }
  unfold allEvents in H. fold (rootsOf projectId) in H.
  rewrite Hevs in H. simpl in H.
  by destruct (getDataCollectorQuery _ projectId h).
Qed.

(** ** Fuel and the combined root *)

Lemma forEach_ext {A S : Type} (l : list A) (body body' : A → S → option S) :
  (∀ x s s', In x l → body x s = Some s' → body' x s = Some s') →
  ∀ s s', forEach l body s = Some s' → forEach l body' s = Some s'.
Proof.
  induction l as [|x rest IH]; intros Hb s s'; simpl; [done|].
  destruct (body x s) as [s1|] eqn:Hx; [|done].
  rewrite (Hb x s s1 (or_introl eq_refl) Hx).
  apply IH. intros y t t' Hy. apply Hb. by right.
Qed.

(** A walk that returns gives the same state with any larger fuel. *)
Lemma walkTree_fuel_mono fuel fuel' term a q tree s s' :
  fuel ≤ fuel' →
  walkTree fuel term a q tree s = Some s' →
  walkTree fuel' term a q tree s = Some s'.
Proof.
  intros Hle.
  rewrite !(walkTree_events (heap s) tree a q _ term s (static_eq_refl _)).
  destruct (walkEvents fuel _ _ _ _ _) as [evs|] eqn:Hw; [|done].
  by rewrite (walkEvents_fuel_mono _ _ _ _ fuel fuel' term evs Hle Hw).
Qed.

Lemma rootStep_fuel_mono fuel fuel' questionMap answerMap tree r ls ls' :
  fuel ≤ fuel' →
  rootStep fuel questionMap answerMap tree r ls = Some ls' →
  rootStep fuel' questionMap answerMap tree r ls = Some ls'.
Proof.
  intros Hle. unfold rootStep.
  destruct (resolveAnswer _ _ r) as [a|]; [|done].
  destruct (resolveQuestion _ (Some a)) as [q|]; [|done].
  destruct (forEach _ (fun term s => walkTree fuel term a q tree s) _)
    as [s2|] eqn:Hf; [|done].
  intros [= <-].
  erewrite forEach_ext; [done | | exact Hf].
  intros term s s' _. by apply walkTree_fuel_mono.
Qed.

(** The root query resolves to an answer and a question. *)
Definition attached (h : Heap) (questionMap : gmap string Question)
    (answerMap : AnswerMap) (rootQuery : loc) : bool :=
  match resolveAnswer answerMap h rootQuery with
  | Some a =>
      match resolveQuestion questionMap (Some a) with
      | Some _ => true
      | None => false
      end
  | None => false
  end.

Lemma rootStep_groups h tree questionMap answerMap fuel r ls ls' :
  static_eq h (heap (loop_state ls)) →
  rootStep fuel questionMap answerMap tree r ls = Some ls' →
  loop_groups ls' =
  loop_groups ls ++ (if attached h questionMap answerMap r then [r] else []).
Proof.
  intros Hst. unfold rootStep, attached.
  rewrite <- (static_resolveAnswer _ _ answerMap r Hst).
  destruct (resolveAnswer answerMap h r) as [a|];
    [|intros [= <-]; by rewrite app_nil_r].
  destruct (resolveQuestion questionMap (Some a)) as [q|];
    [|intros [= <-]; by rewrite app_nil_r].
  destruct (forEach _ _ _) as [s2|]; [|done]. by intros [= <-].
Qed.

Lemma forEach_rootStep_groups h tree questionMap answerMap fuel rs : ∀ ls ls',
  static_eq h (heap (loop_state ls)) →
  forEach rs (rootStep fuel questionMap answerMap tree) ls = Some ls' →
  loop_groups ls' =
  loop_groups ls ++ List.filter (attached h questionMap answerMap) rs.
Proof.
  induction rs as [|r rest IH]; intros ls ls' Hst; simpl.
  { intros [= <-]. by rewrite app_nil_r. }
  destruct (rootStep fuel questionMap answerMap tree r ls) as [ls1|] eqn:Hr;
    [|done].
  intros Hrest. rewrite (IH ls1 ls'); [| |done].
  - rewrite (rootStep_groups h _ _ _ _ _ _ _ Hst Hr), <- app_assoc.
    by destruct (attached h questionMap answerMap r).
  - pose proof (rootStep_events h tree questionMap answerMap fuel r ls Hst) as H.
    rewrite Hr in H. simpl in H.
    destruct (rootEvents _ _ _ _ _ _) as [evs|]; [|done].
    injection H as ->.
    eapply static_eq_trans; [exact Hst | apply applyEvents_static].
Qed.

(** The result does not depend on the fuel once the run returns. *)
Lemma getDataCollectorQuery_fuel_mono fuel fuel' projectId h res :
  fuel ≤ fuel' →
  getDataCollectorQuery fuel projectId h = Some res →
  getDataCollectorQuery fuel' projectId h = Some res.
Proof.
  intros Hle. unfold getDataCollectorQuery.
  destruct (getSectionsQuestionsAndAnswers projectId) as [[sm qm] am].
  destruct (Nat.eqb _ 0); [done|].
  destruct (buildQueryTree h _) as [tree tm].
  destruct (forEach _ (rootStep fuel qm am tree) _) as [ls|] eqn:Hf; [|done].
  intros [= <-].
  erewrite forEach_ext; [done | | exact Hf].
  intros r s s' _. by apply rootStep_fuel_mono.
Qed.

(** The children of the combined root are the root queries that resolve to
    an answer and a question, in the order of the answers. *)
Lemma combinedQuery_groups fuel projectId h res :
  getDataCollectorQuery fuel projectId h = Some res →
  rootsOf projectId ≠ [] →
  combinedQuery res =
  Some (mkCombinedQuery Any
          (List.filter (attached h (questionMapOf projectId)
                          (answerMapOf projectId))
             (rootsOf projectId))).
Proof.
  unfold getDataCollectorQuery, rootsOf, questionMapOf, answerMapOf.
  destruct (getSectionsQuestionsAndAnswers projectId) as [[sm qm] am]; simpl.
  intros Hrun Hroots.
  destruct (rootQueriesOf qm am) as [|r0 rs]; [done|].
  cbn [length Nat.eqb] in Hrun.
  destruct (buildQueryTree h _) as [tree tm].
  destruct (forEach _ _ _) as [ls|] eqn:Hf; [|done].
  injection Hrun as <-. simpl. do 2 f_equal.
  by rewrite (forEach_rootStep_groups h tree qm am fuel (r0 :: rs)
                (mkLoopState (mkState h ∅ ∅ ∅) [] ∅) ls
                (static_eq_refl h) Hf).
Qed.

(** ** The multimap helper *)

(** [addOneToMultiMap] appends the value to the list under the key, starting
    a list when there is none; it leaves every other key alone and never
    stores an empty list. *)
Theorem addOneToMultiMap_lookup {V : Type} (m : gmap string (list V))
    (key : string) (v : V) :
  addOneToMultiMap m key v !! key = Some (default [] (m !! key) ++ [v]) ∧
  (∀ k, k ≠ key → addOneToMultiMap m key v !! k = m !! k) ∧
  ((∀ k l, m !! k = Some l → l ≠ []) →
   ∀ k l, addOneToMultiMap m key v !! k = Some l → l ≠ []).
Proof.
  unfold addOneToMultiMap. split; [|split].
  - destruct (m !! key) as [vs|] eqn:Hk; by rewrite lookup_insert_eq.
  - intros k Hne. destruct (m !! key) as [vs|]; by rewrite lookup_insert_ne.
  - intros Hm k l. destruct (m !! key) as [vs|].
    + intros [[_ <-] | [_ Hk]]%lookup_insert_Some;
        [by destruct vs | by eapply Hm].
    + intros [[_ <-] | [_ Hk]]%lookup_insert_Some; [done | by eapply Hm].
Qed.

(** ** More on the parent index *)

Lemma childOf_parentId h k c :
  childOf h k c = true ↔ parentId (h c) = Some k ∧ k ≠ "".
Proof.
  unfold childOf. destruct (parentId (h c)) as [pid|].
  - rewrite andb_true_iff, truthy_true_iff, String.eqb_eq. split.
    + intros [Hne ->]. by split.
    + intros [[= ->] Hne]. by split.
  - split; [done | by intros [[=] _]].
Qed.

Lemma buildQueryTree_In h terms k c :
  In c (default [] ((buildQueryTree h terms).1 !! k)) ↔
  In c terms ∧ parentId (h c) = Some k ∧ k ≠ "".
Proof.
  unfold buildQueryTree. rewrite buildQueryTree_fold_tree. simpl.
  rewrite lookup_empty. simpl. by rewrite filter_In, childOf_parentId.
Qed.



(** ** More on the events of a run *)

Lemma walkEvents_Attach h tree a q fuel : ∀ term evs r,
  walkEvents fuel h tree term a q = Some evs → ¬ In (Attach r) evs.
Proof.
  induction fuel as [|fuel IH]; intros term evs r Hw; [done|].
  cbn [walkEvents] in Hw.
  destruct (disabled (h term) || Nat.eqb (length (kids h tree term)) 0).
  { injection Hw as <-. by intros [|]. }
  destruct (concatEvents _ _) as [cevs|] eqn:Hc; [|done].
  injection Hw as <-. simpl. rewrite in_app_iff.
  rewrite (concatEvents_In _ _ _ Hc).
  intros [[=] | [(child & ex & Hin & Hf & He) | Ht]].
  - destruct (disabled (h child)); [by injection Hf as <-|].
    by apply (IH _ _ _ Hf) in He.
  - destruct (truthyCategory _); simpl in Ht; [by destruct Ht | done].
Qed.

Lemma rootEvents_Attach h questionMap answerMap tree fuel r evs :
  rootEvents fuel h questionMap answerMap tree r = Some evs →
  ∀ r', In (Attach r') evs ↔ r' = r ∧ attached h questionMap answerMap r = true.
Proof.
  unfold rootEvents, attached. intros Hr r'.
  destruct (resolveAnswer answerMap h r) as [a|];
    [|injection Hr as <-; split; [done | by intros [_ [=]]]].
  destruct (resolveQuestion questionMap (Some a)) as [q|];
    [|injection Hr as <-; split; [done | by intros [_ [=]]]].
  destruct (concatEvents _ _) as [cevs|] eqn:Hc; [|done].
  injection Hr as <-. cbn [In]. rewrite (concatEvents_In _ _ _ Hc). split.
  - intros [[= ->] | (term & ex & _ & Hf & He)]; [done|].
    by apply (walkEvents_Attach _ _ _ _ _ _ _ _ Hf) in He.
  - intros [-> _]. by left.
Qed.

Lemma allEvents_Attach h questionMap answerMap tree fuel evs :
  allEvents fuel h questionMap answerMap tree = Some evs →
  ∀ r, In (Attach r) evs ↔
       In r (rootQueriesOf questionMap answerMap) ∧
       attached h questionMap answerMap r = true.
Proof.
  unfold allEvents. intros Hall r. rewrite (concatEvents_In _ _ _ Hall). split.
  - intros (r0 & ex & Hr0 & Hf & He).
    apply (rootEvents_Attach _ _ _ _ _ _ _ Hf) in He as [-> Hatt]. by split.
  - intros [Hr Hatt].
    destruct (concatEvents_each _ _ _ Hall r Hr) as [ex Hex].
    exists r, ex. split; [done|]. split; [done|].
    by apply (rootEvents_Attach _ _ _ _ _ _ _ Hex).
Qed.

(** An event writes to the object [n]. *)
Definition touches (n : loc) (e : Event) : Prop :=
  match e with
  | Visit term _ _ => term = n
  | Collect _ => False
  | Attach r => r = n
  end.

Lemma applyEvent_untouched tree s e n :
  ¬ touches n e → heap (applyEvent tree s e) n = heap s n.
Proof.
  destruct e as [term a q | term | r]; simpl; intros Hn; [| done |].
  - rewrite !update_ne; [done | |]; by intros ->.
  - rewrite update_ne; [done|]. by intros ->.
Qed.

Lemma applyEvents_untouched tree evs : ∀ s n,
  (∀ e, In e evs → ¬ touches n e) →
  heap (applyEvents tree evs s) n = heap s n.
Proof.
  induction evs as [|e evs IH]; intros s n Hno; simpl; [done|].
  rewrite IH, applyEvent_untouched; [done | |].
  - apply Hno. by left.
  - intros e' Hin. apply Hno. by right.
Qed.

Lemma applyEvent_touched_groups tree h s e n :
  static_eq h (heap s) → touches n e →
  groups (heap (applyEvent tree s e) n) = Some (kids h tree n).
Proof.
  intros Hst. destruct e as [term a q | term | r]; simpl; [| done |];
    intros ->.
  - rewrite !update_eq. simpl. unfold kids. by rewrite (static_id _ _ n Hst).
  - rewrite update_eq. simpl. by rewrite (static_kids _ _ tree n Hst).
Qed.

Lemma applyEvents_touched_groups tree h evs : ∀ s n e,
  static_eq h (heap s) → In e evs → touches n e →
  groups (heap (applyEvents tree evs s) n) = Some (kids h tree n).
Proof.
  induction evs as [|e0 evs IH]; intros s n e Hst Hin Ht; [done|].
  simpl.
  assert (static_eq h (heap (applyEvent tree s e0))) as Hst'.
  { eapply static_eq_trans; [exact Hst | apply applyEvent_static]. }
  destruct Hin as [-> | Hin].
  - apply applyEvents_groups; [done|]. by apply applyEvent_touched_groups.
  - by apply (IH _ n e).
Qed.

(** ** Further properties of a run *)

Lemma run_state fuel projectId h res :
  getDataCollectorQuery fuel projectId h = Some res →
  ∃ evs,
    allEvents fuel h (questionMapOf projectId) (answerMapOf projectId)
      (treeOf projectId h) = Some evs ∧
    finalHeap res =
      heap (applyEvents (treeOf projectId h) evs (initialState h)) ∧
    result_termToAnswerMap res =
      termToAnswerMap (applyEvents (treeOf projectId h) evs (initialState h)) ∧
    result_answerToTermsMap res =
      answerToTermsMap (applyEvents (treeOf projectId h) evs (initialState h)) ∧
    result_collectedChildrenMap res =
      collectedChildrenMap
        (applyEvents (treeOf projectId h) evs (initialState h)).
Proof.
  intros Hrun. destruct (run_events _ _ _ _ Hrun) as (evs & Hall & Hres).
  exists evs. split; [done|]. by rewrite <- Hres.
Qed.

Lemma run_fields fuel projectId h res :
  getDataCollectorQuery fuel projectId h = Some res →
  result_answerMap res = answerMapOf projectId ∧
  result_sectionMap res = sectionMapOf projectId ∧
  (rootsOf projectId ≠ [] →
   terms res = findDescendantsForEntities queryRepository (rootsOf projectId) ∧
   termMap res =
     (buildQueryTree h
        (findDescendantsForEntities queryRepository (rootsOf projectId))).2 ∧
   repositoryCalls res = [rootsOf projectId]).
Proof.
  unfold getDataCollectorQuery, rootsOf, questionMapOf, answerMapOf,
    sectionMapOf.
  destruct (getSectionsQuestionsAndAnswers projectId) as [[sm qm] am]; simpl.
  destruct (rootQueriesOf qm am) as [|r0 rs].
  { simpl. by intros [= <-]. }
  cbn [length Nat.eqb].
  destruct (buildQueryTree h _) as [tree tm].
  destruct (forEach _ _ _) as [ls|]; [|done]. by intros [= <-].
Qed.

Lemma visits_listed h tree term n :
  visits h tree term n →
  (∃ k, In term (default [] (tree !! k))) → ∃ k, In n (default [] (tree !! k)).
Proof.
  induction 1 as [term | term child n Hd Hin Hdc Hv IH]; [done|].
  intros _. apply IH. by exists (id (h term)).
Qed.

Lemma walkedUnder_listed h questionMap answerMap tree r a q n :
  walkedUnder h questionMap answerMap tree r a q n →
  ∃ k, In n (default [] (tree !! k)).
Proof.
  intros (_ & _ & term & Hterm & Hv). apply (visits_listed h tree term n Hv).
  by exists (id (h r)).
Qed.

(** Some attached root query has a walk that reaches [n]. *)
Definition reached (projectId : string) (h : Heap) (n : loc) : Prop :=
  ∃ r a q, In r (rootsOf projectId) ∧
           walkedUnder h (questionMapOf projectId) (answerMapOf projectId)
             (treeOf projectId h) r a q n.

Lemma reached_fetched projectId h n :
  reached projectId h n →
  In n (findDescendantsForEntities queryRepository (rootsOf projectId)) ∧
  hasParent h n = true.
Proof.
  intros (r & a & q & _ & Hw).
  apply walkedUnder_listed in Hw as (k & Hk).
  apply buildQueryTree_In in Hk as (Hin & Hp & Hne). split; [done|].
  unfold hasParent. rewrite Hp. by apply truthy_true_iff.
Qed.

(** The two index maps hold nothing but nodes the repository returned with
    a resolvable parent id: a root query that is not itself returned below
    another root, and a returned node without parent, are never indexed. *)
Theorem indexes_hold_fetched_nodes fuel projectId h res :
  getDataCollectorQuery fuel projectId h = Some res →
  (∀ k n, In n (default [] (result_answerToTermsMap res !! k)) →
          In n (terms res) ∧ hasParent h n = true) ∧
  (∀ k v, result_termToAnswerMap res !! k = Some v →
          ∃ n, In n (terms res) ∧ hasParent h n = true ∧ id (h n) = k).
Proof.
  intros Hrun. destruct (run_state _ _ _ _ Hrun)
    as (evs & Hall & Hheap & Ht2a & Ha2t & Hccm).
  destruct (run_fields _ _ _ _ Hrun) as (_ & _ & Hfields).
  assert (∀ n, reached projectId h n →
               In n (terms res) ∧ hasParent h n = true) as Hreached.
  { intros n Hn. destruct Hn as (r & a & q & Hr & Hw).
    destruct Hfields as (-> & _); [by intros Heq; rewrite Heq in Hr|].
    apply reached_fetched. by exists r, a, q. }
  split.
  - intros k n Hin. rewrite Ha2t in Hin.
    apply applyEvents_answerToTermsMap in Hin as [Hin | (a & q & Hin & Hk)].
    { simpl in Hin. by rewrite lookup_empty in Hin. }
    apply (allEvents_Visit _ _ _ _ _ _ Hall) in Hin as (r & Hr & Hw).
    apply Hreached. by exists r, a, q.
  - intros k v Hk. rewrite Ht2a in Hk.
    apply (applyEvents_termToAnswerMap_Some h) in Hk
      as [Hk | (n & q & Hin & Hid)]; [done | | apply static_eq_refl].
    apply (allEvents_Visit _ _ _ _ _ _ Hall) in Hin as (r & Hr & Hw).
    exists n. destruct (Hreached n) as [? ?]; [by exists r, v, q | done].
Qed.

(** The two index maps agree: an id that resolves to an answer belongs to a
    node listed under that answer, and every listed node has its id
    resolved. *)
Theorem indexes_agree fuel projectId h res :
  getDataCollectorQuery fuel projectId h = Some res →
  (∀ k v, result_termToAnswerMap res !! k = Some v →
          ∃ n, In n (default [] (result_answerToTermsMap res !! answer_id v)) ∧
               id (h n) = k) ∧
  (∀ k n, In n (default [] (result_answerToTermsMap res !! k)) →
          ∃ v, result_termToAnswerMap res !! id (h n) = Some v).
Proof.
  intros Hrun. destruct (run_state _ _ _ _ Hrun)
    as (evs & Hall & Hheap & Ht2a & Ha2t & Hccm). rewrite Ht2a, Ha2t. split.
  - intros k v Hk.
    apply (applyEvents_termToAnswerMap_Some h) in Hk
      as [Hk | (n & q & Hin & Hid)]; [done | | apply static_eq_refl].
    exists n. split; [|done]. apply applyEvents_answerToTermsMap.
    right. by exists v, q.
  - intros k n Hin.
    apply applyEvents_answerToTermsMap in Hin as [Hin | (a & q & Hin & Hk)].
    { simpl in Hin. by rewrite lookup_empty in Hin. }
    destruct (applyEvents_termToAnswerMap_visited h (treeOf projectId h) evs
                (initialState h) n a q (static_eq_refl h) Hin)
      as (n' & a' & q' & Hk' & _). by exists a'.
Qed.

(** A reached node resolves to the answer of its root when every root that
    reaches a node of the same id resolves to that answer. *)
Theorem termToAnswer_value fuel projectId h res n a :
  getDataCollectorQuery fuel projectId h = Some res →
  (∃ r q, In r (rootsOf projectId) ∧
          walkedUnder h (questionMapOf projectId) (answerMapOf projectId)
            (treeOf projectId h) r a q n) →
  (∀ r' a' q' n',
     In r' (rootsOf projectId) →
     walkedUnder h (questionMapOf projectId) (answerMapOf projectId)
       (treeOf projectId h) r' a' q' n' →
     id (h n') = id (h n) → a' = a) →
  result_termToAnswerMap res !! id (h n) = Some a.
Proof.
  intros Hrun (r & q & Hr & Hw) Hsame.
  destruct (run_state _ _ _ _ Hrun)
    as (evs & Hall & Hheap & Ht2a & Ha2t & Hccm). rewrite Ht2a.
  assert (In (Visit n a q) evs) as Hin.
  { apply (allEvents_Visit _ _ _ _ _ _ Hall). by exists r. }
  destruct (applyEvents_termToAnswerMap_visited h (treeOf projectId h) evs
              (initialState h) n a q (static_eq_refl h) Hin)
    as (n' & a' & q' & Hk & Hin' & Hid).
  rewrite Hk. f_equal.
  apply (allEvents_Visit _ _ _ _ _ _ Hall) in Hin' as (r' & Hr' & Hw').
  by apply (Hsame r' a' q' n').
Qed.

(** Every entry of the collected-children map was written for an enabled
    node with a truthy category and children in the parent index that a
    walk reached, and tells whether one of those children has [collect]. *)
Theorem collected_entry_origin fuel projectId h res :
  getDataCollectorQuery fuel projectId h = Some res →
  ∀ k b, result_collectedChildrenMap res !! k = Some b →
    ∃ n, reached projectId h n ∧ id (h n) = k ∧
         disabled (h n) = false ∧
         truthyCategory (category (h n)) = true ∧
         kids h (treeOf projectId h) n ≠ [] ∧
         (b = true ↔
          ∃ c, In c (kids h (treeOf projectId h) n) ∧ collect (h c) = true).
Proof.
  intros Hrun k b Hk.
  destruct (run_state _ _ _ _ Hrun)
    as (evs & Hall & Hheap & Ht2a & Ha2t & Hccm). rewrite Hccm in Hk.
  apply (applyEvents_collectedChildrenMap_Some h) in Hk
    as [Hk | (n & Hin & Hid & ->)]; [done | | apply static_eq_refl].
  apply (allEvents_Collect _ _ _ _ _ _ Hall) in Hin
    as ((r & a & q & Hr & Hw) & Hd & Hkids & Hcat).
  exists n. split; [by exists r, a, q|]. repeat (split; [done|]).
  apply anyCollected_true.
Qed.

(** No run changes the id, the flags, the category, the match type or the
    back-references of any query object. *)
Theorem static_fields_preserved fuel projectId h res :
  getDataCollectorQuery fuel projectId h = Some res →
  ∀ n, id (finalHeap res n) = id (h n) ∧
       disabled (finalHeap res n) = disabled (h n) ∧
       collect (finalHeap res n) = collect (h n) ∧
       parentId (finalHeap res n) = parentId (h n) ∧
       answerId (finalHeap res n) = answerId (h n) ∧
       category (finalHeap res n) = category (h n) ∧
       match_ (finalHeap res n) = match_ (h n).
Proof.
  intros Hrun n.
  destruct (run_state _ _ _ _ Hrun)
    as (evs & Hall & Hheap & Ht2a & Ha2t & Hccm). rewrite Hheap.
  pose proof (applyEvents_static (treeOf projectId h) evs (initialState h) n)
    as Hst.
  simpl in Hst. unfold static in Hst. injection Hst as -> -> -> -> -> -> ->.
  done.
Qed.

(** After a run the [groups] of every attached root query and of every
    reached node list its children in the parent index (none: the empty
    list); an object that is neither is left exactly as it was. *)
Theorem groups_hydrated fuel projectId h res :
  getDataCollectorQuery fuel projectId h = Some res →
  (∀ r, In r (rootsOf projectId) →
        attached h (questionMapOf projectId) (answerMapOf projectId) r = true →
        groups (finalHeap res r) = Some (kids h (treeOf projectId h) r)) ∧
  (∀ n, reached projectId h n →
        groups (finalHeap res n) = Some (kids h (treeOf projectId h) n)) ∧
  (∀ n, ¬ (In n (rootsOf projectId) ∧
           attached h (questionMapOf projectId) (answerMapOf projectId) n
             = true) →
        ¬ reached projectId h n →
        finalHeap res n = h n).
Proof.
  intros Hrun. destruct (run_state _ _ _ _ Hrun)
    as (evs & Hall & Hheap & Ht2a & Ha2t & Hccm). rewrite Hheap. split; [|split].
  - intros r Hr Hatt.
    apply (applyEvents_touched_groups _ h evs _ r (Attach r));
      [apply static_eq_refl | | done].
    by apply (allEvents_Attach _ _ _ _ _ _ Hall).
  - intros n (r & a & q & Hr & Hw).
    apply (applyEvents_touched_groups _ h evs _ n (Visit n a q));
      [apply static_eq_refl | | done].
    apply (allEvents_Visit _ _ _ _ _ _ Hall). by exists r.
  - intros n Hroot Hreach. rewrite applyEvents_untouched; [done|].
    intros [term a q | term | r] Hin; simpl; [| by intros [] |]; intros ->.
    + apply Hreach.
      apply (allEvents_Visit _ _ _ _ _ _ Hall) in Hin as (r & Hr & Hw).
      by exists r, a, q.
    + apply Hroot. by apply (allEvents_Attach _ _ _ _ _ _ Hall).
Qed.

(** The combined root is undefined exactly for an empty root set; otherwise
    it matches any of its children, which are the root queries that resolve
    to an answer and a question, in the order of the answers, and possibly
    none. *)
Theorem combined_root fuel projectId h res :
  getDataCollectorQuery fuel projectId h = Some res →
  (combinedQuery res = None ↔ rootsOf projectId = []) ∧
  (rootsOf projectId ≠ [] →
   combinedQuery res =
   Some (mkCombinedQuery Any
           (List.filter (attached h (questionMapOf projectId)
                           (answerMapOf projectId))
              (rootsOf projectId)))).
Proof.
  intros Hrun.
  assert (rootsOf projectId = [] ∨ rootsOf projectId ≠ []) as [Hroots | Hroots]
    by (destruct (rootsOf projectId); [by left | by right]).
  - split; [|done]. split; [done|]. intros _.
    revert Hrun. unfold getDataCollectorQuery.
    unfold rootsOf, questionMapOf, answerMapOf in Hroots.
    destruct (getSectionsQuestionsAndAnswers projectId) as [[sm qm] am].
    simpl in Hroots. rewrite Hroots. simpl. by intros [= <-].
  - rewrite (combinedQuery_groups _ _ _ _ Hrun Hroots). by split.
Qed.

(** When the parent index is well founded below the enabled nodes, the run
    returns, and returns the same result for every larger fuel. *)
Theorem run_returns_on_well_founded_index projectId h rank :
  decreasing h (treeOf projectId h) rank →
  ∃ fuel res, ∀ fuel', fuel ≤ fuel' →
    getDataCollectorQuery fuel' projectId h = Some res.
Proof.
  intros Hdec.
  destruct (getDataCollectorQuery_terminates projectId h rank Hdec)
    as (fuel & res & Hrun).
  exists fuel, res. intros fuel' Hle.
  by apply (getDataCollectorQuery_fuel_mono fuel fuel').
Qed.

(** ** Cycles in the parent index *)

(** [t] is enabled and reaches itself through an enabled child. *)
Definition onCycle (h : Heap) (tree : gmap string (list loc)) (t : loc) : Prop :=
  disabled (h t) = false ∧
  ∃ c, In c (kids h tree t) ∧ disabled (h c) = false ∧ visits h tree c t.

Lemma walkEvents_sub h tree a q term n :
  visits h tree term n →
  ∀ fuel, is_Some (walkEvents fuel h tree term a q) →
  ∃ fuel', fuel' ≤ fuel ∧ is_Some (walkEvents fuel' h tree n a q).
Proof.
  induction 1 as [term | term child n Hd Hin Hdc Hv IH]; intros fuel Hw.
  { by exists fuel. }
  destruct fuel as [|fuel]; [by destruct Hw|].
  cbn [walkEvents] in Hw. rewrite Hd in Hw. simpl in Hw.
  assert (Nat.eqb (length (kids h tree term)) 0 = false) as Hk.
  { apply kids_nonempty. intros Heq. by rewrite Heq in Hin. }
  rewrite Hk in Hw.
  destruct (concatEvents _ _) as [cevs|] eqn:Hc; [|by destruct Hw].
  pose proof (concatEvents_each _ _ _ Hc child Hin) as Hchild.
  simpl in Hchild. rewrite Hdc in Hchild.
  destruct (IH fuel Hchild) as (fuel' & Hle & Hn).
  exists fuel'. split; [lia | done].
Qed.

Lemma walkEvents_cycle h tree a q t :
  onCycle h tree t → ∀ fuel, walkEvents fuel h tree t a q = None.
Proof.
  intros (Hd & c & Hin & Hdc & Hv) fuel.
  induction fuel as [fuel IH] using (well_founded_induction lt_wf).
  destruct (walkEvents fuel h tree t a q) as [evs|] eqn:Hw; [|done].
  exfalso.
  assert (visits h tree t t) as Hloop by (by eapply visits_child).
  destruct fuel as [|fuel]; [done|].
  cbn [walkEvents] in Hw. rewrite Hd in Hw. simpl in Hw.
  assert (Nat.eqb (length (kids h tree t)) 0 = false) as Hk.
  { apply kids_nonempty. intros Heq. by rewrite Heq in Hin. }
  rewrite Hk in Hw.
  destruct (concatEvents _ _) as [cevs|] eqn:Hc; [|done].
  pose proof (concatEvents_each _ _ _ Hc c Hin) as Hchild.
  simpl in Hchild. rewrite Hdc in Hchild.
  destruct (walkEvents_sub h tree a q c t Hv fuel Hchild) as (fuel' & Hle & Hn).
  rewrite IH in Hn; [by destruct Hn | lia].
Qed.

Lemma walkEvents_reaches_cycle h tree a q term t :
  visits h tree term t → onCycle h tree t →
  ∀ fuel, walkEvents fuel h tree term a q = None.
Proof.
  intros Hv Hcyc fuel.
  destruct (walkEvents fuel h tree term a q) as [evs|] eqn:Hw; [|done].
  destruct (walkEvents_sub h tree a q term t Hv fuel) as (fuel' & _ & Hn).
  { by rewrite Hw. }
  rewrite (walkEvents_cycle h tree a q t Hcyc) in Hn. by destruct Hn.
Qed.

(** When a walk of an attached root reaches an enabled node that lies on a
    cycle of enabled nodes of the parent index, the run does not return,
    whatever the fuel. *)
Theorem run_diverges_on_cycle fuel projectId h r a q t :
  In r (rootsOf projectId) →
  walkedUnder h (questionMapOf projectId) (answerMapOf projectId)
    (treeOf projectId h) r a q t →
  onCycle h (treeOf projectId h) t →
  getDataCollectorQuery fuel projectId h = None.
Proof.
  intros Hr (Ha & Hq & term & Hterm & Hv) Hcyc.
  assert (rootsOf projectId ≠ []) as Hroots.
  { intros Heq. by rewrite Heq in Hr. }
  pose proof (getDataCollectorQuery_events fuel projectId h Hroots) as H.
  assert (allEvents fuel h (questionMapOf projectId) (answerMapOf projectId)
            (treeOf projectId h) = None) as Hnone.
  { destruct (allEvents _ _ _ _ _) as [evs|] eqn:Hall; [|done]. exfalso.
    destruct (concatEvents_each _ _ _ Hall r Hr) as [ex Hex].
    unfold rootEvents in Hex. rewrite Ha, Hq in Hex.
    destruct (concatEvents _ _) as [cevs|] eqn:Hc; [|done].
    destruct (concatEvents_each _ _ _ Hc term Hterm) as [tev Htev].
    by rewrite (walkEvents_reaches_cycle _ _ a q term t Hv Hcyc) in Htev. }
  rewrite Hnone in H. simpl in H.
  by destruct (getDataCollectorQuery fuel projectId h).
Qed.

(** ** The question index of the root loop *)

(** The root query resolves to a question with the id [k]. *)
Definition resolvesTo (h : Heap) (questionMap : gmap string Question)
    (answerMap : AnswerMap) (k : string) (rootQuery : loc) : bool :=
  match resolveQuestion questionMap (resolveAnswer answerMap h rootQuery) with
  | Some question => String.eqb (question_id question) k
  | None => false
  end.

Lemma rootStep_static h tree questionMap answerMap fuel r ls ls' :
  static_eq h (heap (loop_state ls)) →
  rootStep fuel questionMap answerMap tree r ls = Some ls' →
  static_eq h (heap (loop_state ls')).
Proof.
  intros Hst Hr.
  pose proof (rootStep_events h tree questionMap answerMap fuel r ls Hst) as H.
  rewrite Hr in H. simpl in H.
  destruct (rootEvents _ _ _ _ _ _) as [evs|]; [|done].
  injection H as ->.
  eapply static_eq_trans; [exact Hst | apply applyEvents_static].
Qed.

Lemma rootStep_questions h tree questionMap answerMap fuel r ls ls' k :
  static_eq h (heap (loop_state ls)) →
  rootStep fuel questionMap answerMap tree r ls = Some ls' →
  default [] (questionCombinedQueries ls' !! k) =
  default [] (questionCombinedQueries ls !! k) ++
  (if resolvesTo h questionMap answerMap k r then [r] else []).
Proof.
  intros Hst. unfold rootStep, resolvesTo.
  rewrite <- (static_resolveAnswer _ _ answerMap r Hst).
  destruct (resolveAnswer answerMap h r) as [a|];
    [|intros [= <-]; by rewrite app_nil_r].
  destruct (resolveQuestion questionMap (Some a)) as [q|];
    [|intros [= <-]; by rewrite app_nil_r].
  destruct (forEach _ _ _) as [s2|]; [|done]. intros [= <-]. simpl.
  rewrite lookup_addOneToMultiMap.
  destruct (String.eqb_spec (question_id q) k) as [-> | Hne].
  - by rewrite decide_True.
  - rewrite decide_False; [done | congruence].
Qed.

(** When the root loop returns, its question index lists under each
    question id the root queries that resolve to a question of that id, in
    the order of the loop, after what the index held before; the children
    of the combined root grow by the roots that resolve at all. *)
Theorem root_loop_indexes h tree questionMap answerMap fuel rs : ∀ ls ls',
  static_eq h (heap (loop_state ls)) →
  forEach rs (rootStep fuel questionMap answerMap tree) ls = Some ls' →
  (∀ k, default [] (questionCombinedQueries ls' !! k) =
        default [] (questionCombinedQueries ls !! k) ++
        List.filter (resolvesTo h questionMap answerMap k) rs) ∧
  loop_groups ls' =
  loop_groups ls ++ List.filter (attached h questionMap answerMap) rs.
Proof.
  intros ls ls' Hst Hloop. split; [|by eapply forEach_rootStep_groups].
  revert ls ls' Hst Hloop.
  induction rs as [|r rest IH]; intros ls ls' Hst; simpl.
  { intros [= <-] k. by rewrite app_nil_r. }
  destruct (rootStep fuel questionMap answerMap tree r ls) as [ls1|] eqn:Hr;
    [|done].
  intros Hrest k.
  rewrite (IH ls1 ls' (rootStep_static _ _ _ _ _ _ _ _ Hst Hr) Hrest k).
  rewrite (rootStep_questions h _ _ _ _ _ _ _ k Hst Hr), <- app_assoc.
  by destruct (resolvesTo h questionMap answerMap k r).
Qed.

(** ** The first listing of [getDataCollectorQuery] *)

(** The file opens with a listing of [getDataCollectorQuery] that attaches
    the root queries but does not walk the tree: it has no [walkTree], no
    collected-children map and no question index. *)
Record FirstResult : Type := mkFirstResult {
  first_combinedQuery : option CombinedQuery;
  first_answerToTermsMap : gmap string (list loc);
  first_termToAnswerMap : gmap string Answer;
  first_answerMap : AnswerMap;
  first_terms : list loc;
  first_termMap : gmap string loc;
  first_sectionMap : gmap string Section_;
  first_finalHeap : Heap;
  first_repositoryCalls : list (list loc)
}.

(** The body of its loop over [rootQueries]. *)
Definition firstRootStep (questionMap : gmap string Question)
    (answerMap : AnswerMap) (tree : gmap string (list loc))
    (acc : Heap * list loc) (rootQuery : loc) : Heap * list loc :=
  let answer := resolveAnswer answerMap acc.1 rootQuery in
  let question := resolveQuestion questionMap answer in
  match answer, question with
  | Some _, Some _ =>
      (update acc.1 rootQuery
         (withGroups (default [] (tree !! id (acc.1 rootQuery)))
            (acc.1 rootQuery)),
       acc.2 ++ [rootQuery])
  | _, _ => acc
  end.

Definition getDataCollectorQuery_first (projectId : string) (h : Heap)
    : FirstResult :=
  let '(sectionMap, questionMap, answerMap) :=
    getSectionsQuestionsAndAnswers projectId in
  let rootQueries := rootQueriesOf questionMap answerMap in
  if Nat.eqb (length rootQueries) 0 then
    mkFirstResult None ∅ ∅ answerMap [] ∅ sectionMap h []
  else
    let terms := findDescendantsForEntities queryRepository rootQueries in
    let '(tree, termMap) := buildQueryTree h terms in
    let '(h', combinedGroups) :=
      fold_left (firstRootStep questionMap answerMap tree) rootQueries (h, []) in
    mkFirstResult (Some (mkCombinedQuery Any combinedGroups)) ∅ ∅ answerMap
      terms termMap sectionMap h' [rootQueries].

(** The write of an [Attach] event to the object it touches. *)
Definition hydrate (tree : gmap string (list loc)) (x : Query) : Query :=
  withGroups (default [] (tree !! id x)) x.

Lemma applyEvents_no_visit tree evs n : ∀ s,
  (∀ a q, ¬ In (Visit n a q) evs) →
  heap (applyEvents tree evs s) n = heap s n ∨
  heap (applyEvents tree evs s) n = hydrate tree (heap s n).
Proof.
  induction evs as [|e evs IH]; intros s Hno; simpl; [by left|].
  assert (∀ a q, ¬ In (Visit n a q) evs) as Hno'.
  { intros a q Hin. apply (Hno a q). by right. }
  destruct e as [term a q | term | r].
  - destruct (IH (applyEvent tree s (Visit term a q)) Hno') as [-> | ->];
      rewrite (applyEvent_untouched tree s (Visit term a q) n);
      try (by left); try (by right);
      simpl; intros ->; apply (Hno a q); by left.
  - destruct (IH (applyEvent tree s (Collect term)) Hno') as [-> | ->];
      [by left | by right].
  - destruct (Nat.eq_dec r n) as [-> | Hne].
    + right.
      destruct (IH (applyEvent tree s (Attach n)) Hno') as [-> | ->];
        simpl; by rewrite update_eq.
    + destruct (IH (applyEvent tree s (Attach r)) Hno') as [-> | ->];
        rewrite (applyEvent_untouched tree s (Attach r) n); try done;
        [by left | by right].
Qed.

Lemma applyEvents_attach_only tree evs n : ∀ s,
  (∀ a q, ¬ In (Visit n a q) evs) → In (Attach n) evs →
  heap (applyEvents tree evs s) n = hydrate tree (heap s n).
Proof.
  induction evs as [|e evs IH]; intros s Hno Hin; [done|]. simpl.
  assert (∀ a q, ¬ In (Visit n a q) evs) as Hno'.
  { intros a q Hin'. apply (Hno a q). by right. }
  destruct (applyEvents_no_visit tree evs n (applyEvent tree s e) Hno')
    as [Hsame | Hhyd].
  - destruct e as [term a q | term | r].
    + destruct Hin as [[=] | Hin]. rewrite (IH _ Hno' Hin).
      rewrite (applyEvent_untouched tree s (Visit term a q) n); [done|].
      simpl. intros ->. apply (Hno a q). by left.
    + destruct Hin as [[=] | Hin]. by rewrite (IH _ Hno' Hin).
    + destruct (Nat.eq_dec r n) as [-> | Hne].
      * rewrite Hsame. simpl. by rewrite update_eq.
      * destruct Hin as [[= ->] | Hin]; [done|]. rewrite (IH _ Hno' Hin).
        by rewrite (applyEvent_untouched tree s (Attach r) n).
  - rewrite Hhyd. destruct e as [term a q | term | r].
    + rewrite (applyEvent_untouched tree s (Visit term a q) n); [done|].
      simpl. intros ->. apply (Hno a q). by left.
    + done.
    + destruct (Nat.eq_dec r n) as [-> | Hne].
      * simpl. by rewrite update_eq.
      * by rewrite (applyEvent_untouched tree s (Attach r) n).
Qed.

Lemma firstRootStep_attached h0 questionMap answerMap tree r h gs :
  static_eq h0 h →
  firstRootStep questionMap answerMap tree (h, gs) r =
  if attached h0 questionMap answerMap r
  then (update h r (hydrate tree (h r)), gs ++ [r])
  else (h, gs).
Proof.
  intros Hst. unfold firstRootStep, attached. cbn [fst snd].
  rewrite <- (static_resolveAnswer _ _ answerMap r Hst).
  destruct (resolveAnswer answerMap h0 r) as [a|]; [|done].
  by destruct (resolveQuestion questionMap (Some a)).
Qed.

Lemma firstRootStep_fold h0 questionMap answerMap tree rs : ∀ h gs s,
  static_eq h0 h → heap s = h →
  fold_left (firstRootStep questionMap answerMap tree) rs (h, gs) =
  (heap (applyEvents tree
           (map Attach (List.filter (attached h0 questionMap answerMap) rs)) s),
   gs ++ List.filter (attached h0 questionMap answerMap) rs).
Proof.
  induction rs as [|r rest IH]; intros h gs s Hst Hs.
  { simpl. by rewrite app_nil_r, Hs. }
  cbn [fold_left List.filter].
  rewrite (firstRootStep_attached h0 _ _ _ r h gs Hst).
  destruct (attached h0 questionMap answerMap r); [|by apply IH].
  cbn [map]. rewrite (IH _ (gs ++ [r]) (applyEvent tree s (Attach r))).
  - by rewrite <- app_assoc.
  - eapply static_eq_trans; [exact Hst|]. by apply static_eq_update.
  - simpl. unfold kids, hydrate. by rewrite Hs.
Qed.

(** The first listing always returns, with both index maps empty.  When
    the later listing returns as well, the two agree on the combined root,
    the fetched list, the lookup map, the loaded maps and the repository
    call, and on every query object that no walk reaches. *)
Theorem first_listing_agrees fuel projectId h res :
  first_answerToTermsMap (getDataCollectorQuery_first projectId h) = ∅ ∧
  first_termToAnswerMap (getDataCollectorQuery_first projectId h) = ∅ ∧
  (getDataCollectorQuery fuel projectId h = Some res →
   first_combinedQuery (getDataCollectorQuery_first projectId h) =
     combinedQuery res ∧
   first_terms (getDataCollectorQuery_first projectId h) = terms res ∧
   first_termMap (getDataCollectorQuery_first projectId h) = termMap res ∧
   first_answerMap (getDataCollectorQuery_first projectId h) =
     result_answerMap res ∧
   first_sectionMap (getDataCollectorQuery_first projectId h) =
     result_sectionMap res ∧
   first_repositoryCalls (getDataCollectorQuery_first projectId h) =
     repositoryCalls res ∧
   ∀ n, ¬ reached projectId h n →
        first_finalHeap (getDataCollectorQuery_first projectId h) n =
        finalHeap res n).
Proof.
  assert (first_answerToTermsMap (getDataCollectorQuery_first projectId h) = ∅ ∧
          first_termToAnswerMap (getDataCollectorQuery_first projectId h) = ∅)
    as [H1 H2].
  { unfold getDataCollectorQuery_first.
    destruct (getSectionsQuestionsAndAnswers projectId) as [[sm qm] am].
    destruct (Nat.eqb _ 0); [done|].
    destruct (buildQueryTree h _) as [tree tm].
    by destruct (fold_left _ _ _). }
  split; [done|]. split; [done|]. intros Hrun.
  destruct (run_state _ _ _ _ Hrun) as (evs & Hall & Hheap & _).
  pose proof (combinedQuery_groups _ _ _ _ Hrun) as Hcomb.
  revert Hrun Hall Hheap Hcomb.
  unfold reached, getDataCollectorQuery_first, getDataCollectorQuery, treeOf,
    rootsOf, questionMapOf, answerMapOf.
  destruct (getSectionsQuestionsAndAnswers projectId) as [[sm qm] am].
  cbn [fst snd].
  destruct (rootQueriesOf qm am) as [|r0 rs] eqn:Hroots.
  { cbn [length Nat.eqb]. intros [= <-] _ _ _. by repeat split. }
  cbn [length Nat.eqb].
  destruct (buildQueryTree h _) as [tree tm] eqn:Hbuild. cbn [fst snd].
  rewrite (firstRootStep_fold h qm am tree (r0 :: rs) h [] (initialState h)
             (static_eq_refl h) eq_refl).
  destruct (forEach _ _ _) as [ls|]; [|done].
  intros [= <-] Hall Hheap Hcomb.
  cbn [combinedQuery terms termMap result_answerMap result_sectionMap
       repositoryCalls finalHeap first_combinedQuery first_terms first_termMap
       first_answerMap first_sectionMap first_repositoryCalls first_finalHeap
       app] in *.
  specialize (Hcomb ltac:(done)). injection Hcomb as Hcomb.
  split; [by rewrite Hcomb|]. repeat (split; [done|]).
  intros n Hreach. rewrite Hheap.
  assert (∀ a q, ¬ In (Visit n a q) evs) as Hno.
  { intros a q Hin. apply Hreach.
    apply (allEvents_Visit _ _ _ _ _ _ Hall) in Hin as (r & Hr & Hw).
    exists r, a, q. by rewrite <- Hroots at 1. }
  set (att := List.filter (attached h qm am) (r0 :: rs)).
  assert (∀ a q, ¬ In (Visit n a q) (map Attach att)) as Hno1.
  { intros a q (x & [=] & _)%in_map_iff. }
  destruct (in_dec Nat.eq_dec n att) as [Hin | Hout].
  - rewrite (applyEvents_attach_only tree _ n _ Hno1 (in_map Attach _ _ Hin)).
    rewrite (applyEvents_attach_only tree evs n _ Hno); [done|].
    apply (allEvents_Attach _ _ _ _ _ _ Hall). rewrite Hroots.
    by apply filter_In in Hin.
  - rewrite !applyEvents_untouched; [done | |].
    + intros [term a q | term | r] Hin; simpl; [| by intros [] |]; intros ->.
      * by apply (Hno a q).
      * apply Hout. apply filter_In.
        apply (allEvents_Attach _ _ _ _ _ _ Hall) in Hin. by rewrite <- Hroots.
    + intros e (x & <- & Hx)%in_map_iff. simpl. by intros ->.
Qed.

End Run.

(** ** The example run *)

(** [n] lies in the tree that the [groups] fields of the heap span below
    [r]. *)
Inductive inSubtree (h : Heap) : loc → loc → Prop :=
  | inSubtree_root r : inSubtree h r r
  | inSubtree_child r gs c n :
      groups (h r) = Some gs → In c gs → inSubtree h c n → inSubtree h r n.

(** A project whose only answer is hidden and belongs to a single-answer
    question. *)
Definition hiddenLoader (projectId : string)
    : gmap string Section_ * gmap string Question * AnswerMap :=
  (∅, {["q1" := exampleQuestion]}, [("a2", hiddenAnswer)]).

Local Abbreviation exampleRun :=
  (getDataCollectorQuery exampleLoader exampleRepository 2 "p" exampleHeap).
Local Abbreviation exampleTree :=
  (treeOf exampleLoader exampleRepository "p" exampleHeap).

Lemma example_walkedUnder_3_5 :
  walkedUnder exampleHeap (questionMapOf exampleLoader "p")
    (answerMapOf exampleLoader "p") exampleTree 0 exampleAnswer exampleQuestion 5.
Proof.
  split; [reflexivity|]. split; [reflexivity|]. exists 3. split.
  - vm_compute. tauto.
  - apply (visits_child _ _ 3 5 5); [reflexivity | | reflexivity | constructor].
    vm_compute. tauto.
Defined.

Lemma example_walkedUnder_3 :
  walkedUnder exampleHeap (questionMapOf exampleLoader "p")
    (answerMapOf exampleLoader "p") exampleTree 0 exampleAnswer exampleQuestion 3.
Proof.
  split; [reflexivity|]. split; [reflexivity|]. exists 3. split.
  - vm_compute. tauto.
  - constructor.
Defined.

Lemma example_roots r a q n :
  In r (rootsOf exampleLoader "p") →
  walkedUnder exampleHeap (questionMapOf exampleLoader "p")
    (answerMapOf exampleLoader "p") exampleTree r a q n →
  r = 0 ∧ a = exampleAnswer ∧ q = exampleQuestion.
Proof.
  intros [<- | []] (Ha & Hq & _).
  vm_compute in Ha. injection Ha as <-.
  vm_compute in Hq. by injection Hq as <-.
Defined.

(** C2, as stated, fails: the root query of the answer is attached to the
    combined tree but keeps its own [sortDirection], and so does the child
    of a disabled node. *)
Lemma root_query_keeps_sortDirection :
  ∃ res,
    exampleRun = Some res ∧
    query exampleAnswer = Some 0 ∧
    combinedQuery res = Some (mkCombinedQuery Any [0]) ∧
    question_sortDirection exampleQuestion = Descending ∧
    inSubtree (finalHeap res) 0 0 ∧
    sortDirection (finalHeap res 0) = Ascending ∧
    inSubtree (finalHeap res) 0 2 ∧
    sortDirection (finalHeap res 2) = Ascending.
Proof.
  eexists. split; [vm_compute; reflexivity|].
  repeat split.
  - constructor.
  - apply (inSubtree_child _ 0 [1; 3] 1 2); [reflexivity | simpl; tauto |].
    apply (inSubtree_child _ 1 [2] 2 2); [reflexivity | simpl; tauto |].
    constructor.
Qed.

Lemma walk_sets_sortDirection_witness :
  ∃ res, exampleRun = Some res ∧ sortDirection (finalHeap res 5) = Descending.
Proof.
  destruct exampleRun as [res|] eqn:Hrun; [|by vm_compute in Hrun].
  exists res. split; [reflexivity|].
  apply (proj1 (walk_sets_sortDirection exampleLoader exampleRepository 2 "p"
                  exampleHeap res Hrun 5)).
  - exists 0, exampleAnswer, exampleQuestion.
    split; [by left | apply example_walkedUnder_3_5].
  - intros r a q Hr Hw.
    by destruct (example_roots r a q 5 Hr Hw) as (_ & _ & ->).
Defined.

(** C4, as stated, fails: node 1 has a category, is reached by the walk and
    has a child in the parent index, but it is disabled and gets no entry. *)
Lemma disabled_category_node_has_no_entry :
  ∃ res,
    exampleRun = Some res ∧
    category (exampleHeap 1) = Some Measurement ∧
    In 1 (default [] (result_answerToTermsMap res !! "a1")) ∧
    kids exampleHeap exampleTree 1 = [2] ∧
    result_collectedChildrenMap res !! id (exampleHeap 1) = None.
Proof.
  eexists. split; [vm_compute; reflexivity|].
  repeat split. vm_compute. tauto.
Qed.

Lemma collected_children_entry_witness :
  ∃ res, exampleRun = Some res ∧
         result_collectedChildrenMap res !! "c2" = Some true.
Proof.
  destruct exampleRun as [res|] eqn:Hrun; [|by vm_compute in Hrun].
  exists res. split; [reflexivity|].
  destruct (proj1 (collected_children_entry exampleLoader exampleRepository 2
                     "p" exampleHeap res Hrun) 3) as (b & Hb & Hiff).
  - exists 0, exampleAnswer, exampleQuestion.
    split; [by left | apply example_walkedUnder_3].
  - reflexivity.
  - reflexivity.
  - by vm_compute.
  - change (id (exampleHeap 3)) with "c2" in Hb. rewrite Hb. f_equal.
    apply Hiff. exists 4. split; [vm_compute; tauto | reflexivity].
Defined.

(** C5, as stated, fails: node 4 is disabled and belongs to the combined
    tree, but the walk passes it over: it is in neither map. *)
Lemma disabled_grandchild_not_registered :
  ∃ res,
    exampleRun = Some res ∧
    disabled (exampleHeap 4) = true ∧
    inSubtree (finalHeap res) 0 4 ∧
    result_termToAnswerMap res !! id (exampleHeap 4) = None ∧
    result_answerToTermsMap res = {["a1" := [1; 3; 5]]}.
Proof.
  eexists. split; [vm_compute; reflexivity|].
  split; [reflexivity|]. split; [|split; vm_compute; reflexivity].
  apply (inSubtree_child _ 0 [1; 3] 3 4); [reflexivity | simpl; tauto |].
  apply (inSubtree_child _ 3 [4; 5] 4 4); [reflexivity | simpl; tauto |].
  constructor.
Qed.

Lemma disabled_term_registration_witness :
  ∃ res, exampleRun = Some res ∧
         is_Some (result_termToAnswerMap res !! "c1") ∧
         In 1 (default [] (result_answerToTermsMap res !! "a1")).
Proof.
  destruct exampleRun as [res|] eqn:Hrun; [|by vm_compute in Hrun].
  exists res. split; [reflexivity|].
  destruct (proj1 (disabled_term_registration exampleLoader exampleRepository
                     2 "p" exampleHeap res Hrun) 0 exampleAnswer
              exampleQuestion 1) as (H1 & H2 & _).
  - by left.
  - reflexivity.
  - reflexivity.
  - vm_compute. tauto.
  - reflexivity.
  - by split.
Defined.

Lemma empty_root_set_witness :
  rootsOf hiddenLoader "p" = [] ∧
  getDataCollectorQuery hiddenLoader exampleRepository 0 "p" exampleHeap =
  Some (mkResult None ∅ ∅ [("a2", hiddenAnswer)] [] ∅ ∅ ∅ exampleHeap []).
Proof.
  split; [reflexivity|].
  apply (empty_root_set hiddenLoader exampleRepository 0 "p" exampleHeap).
  reflexivity.
Defined.

(** ** Further examples *)

(** A root query that the repository returns below its own child: the
    parent ids of nodes 0 and 1 form a cycle. *)
Definition cyclicHeap : Heap :=
  fun l =>
    match l with
    | 0 => mkQuery "r" false false (Some "a") None (Some "a1") None Any Ascending
    | 1 => mkQuery "a" false false (Some "r") None None (Some Measurement) All Ascending
    | _ => blankQuery
    end.

Definition cyclicRepository : QueryRepository :=
  mkQueryRepository (fun rootQueries => [0; 1]).

(** A rank for the example project: the root above its children above
    theirs. *)
Definition exampleRank (n : loc) : nat :=
  match n with
  | 0 => 2
  | 1 | 3 => 1
  | _ => 0
  end.

(** Brings the result of the example run into the context, evaluated. *)
Ltac example_run res Hrun :=
  destruct exampleRun as [res|] eqn:Hrun; [|by vm_compute in Hrun];
  let H := fresh in
  pose proof Hrun as H; vm_compute in H; injection H as <-.

Lemma addOneToMultiMap_lookup_witness :
  addOneToMultiMap ({["a" := [1]]} : gmap string (list nat)) "b" 2 !! "b"
  = Some [2] ∧
  addOneToMultiMap ({["a" := [1]]} : gmap string (list nat)) "b" 2 !! "a"
  = Some [1].
Proof.
  destruct (addOneToMultiMap_lookup
              ({["a" := [1]]} : gmap string (list nat)) "b" 2)
    as (Hkey & Hother & Hne).
  assert (∀ k l, ({["a" := [1]]} : gmap string (list nat)) !! k = Some l →
                 l ≠ []) as Hm.
  { intros k l [_ <-]%lookup_singleton_Some. discriminate. }
  pose proof (Hne Hm) as _.
  split.
  - rewrite Hkey. reflexivity.
  - rewrite (Hother "a"); [reflexivity | discriminate].
Defined.


Lemma indexes_hold_fetched_nodes_witness :
  ∃ res, exampleRun = Some res ∧ In 5 (terms res) ∧
         hasParent exampleHeap 5 = true.
Proof.
  example_run res Hrun. eexists. split; [reflexivity|].
  apply (proj1 (indexes_hold_fetched_nodes exampleLoader exampleRepository 2
                  "p" exampleHeap _ Hrun) "a1" 5).
  vm_compute. tauto.
Defined.

Lemma indexes_agree_witness :
  ∃ res, exampleRun = Some res ∧
         ∃ v, result_termToAnswerMap res !! id (exampleHeap 5) = Some v.
Proof.
  example_run res Hrun. eexists. split; [reflexivity|].
  apply (proj2 (indexes_agree exampleLoader exampleRepository 2 "p"
                  exampleHeap _ Hrun) "a1" 5).
  vm_compute. tauto.
Defined.

Lemma termToAnswer_value_witness :
  ∃ res, exampleRun = Some res ∧
         result_termToAnswerMap res !! id (exampleHeap 5) = Some exampleAnswer.
Proof.
  destruct exampleRun as [res|] eqn:Hrun; [|by vm_compute in Hrun].
  exists res. split; [reflexivity|].
  apply (termToAnswer_value exampleLoader exampleRepository 2 "p" exampleHeap
           res 5 exampleAnswer Hrun).
  - exists 0, exampleQuestion. split; [by left | apply example_walkedUnder_3_5].
  - intros r' a' q' n' Hr' Hw' _.
    by destruct (example_roots r' a' q' n' Hr' Hw') as (_ & -> & _).
Defined.

Lemma collected_entry_origin_witness :
  ∃ res, exampleRun = Some res ∧
         ∃ n, id (exampleHeap n) = "c2" ∧ disabled (exampleHeap n) = false.
Proof.
  example_run res Hrun. eexists. split; [reflexivity|].
  destruct (collected_entry_origin exampleLoader exampleRepository 2 "p"
              exampleHeap _ Hrun "c2" true) as (n & _ & Hid & Hd & _).
  - vm_compute. reflexivity.
  - by exists n.
Defined.

Lemma static_fields_preserved_witness :
  ∃ res, exampleRun = Some res ∧ id (finalHeap res 3) = id (exampleHeap 3).
Proof.
  destruct exampleRun as [res|] eqn:Hrun; [|by vm_compute in Hrun].
  exists res. split; [reflexivity|].
  apply (static_fields_preserved exampleLoader exampleRepository 2 "p"
           exampleHeap res Hrun 3).
Defined.

Lemma groups_hydrated_witness :
  ∃ res, exampleRun = Some res ∧
         groups (finalHeap res 0) = Some (kids exampleHeap exampleTree 0) ∧
         finalHeap res 6 = exampleHeap 6.
Proof.
  destruct exampleRun as [res|] eqn:Hrun; [|by vm_compute in Hrun].
  exists res. split; [reflexivity|].
  destruct (groups_hydrated exampleLoader exampleRepository 2 "p" exampleHeap
              res Hrun) as (Hroot & _ & Hframe).
  split.
  - apply Hroot; [by left | reflexivity].
  - apply Hframe.
    + intros [[Heq | []] _]. discriminate Heq.
    + intros Hreach.
      apply (reached_fetched exampleLoader exampleRepository) in Hreach
        as [_ Hp].
      discriminate Hp.
Defined.

Lemma combined_root_witness :
  ∃ res, exampleRun = Some res ∧
         combinedQuery res =
         Some (mkCombinedQuery Any
                 (List.filter
                    (attached exampleHeap (questionMapOf exampleLoader "p")
                       (answerMapOf exampleLoader "p"))
                    (rootsOf exampleLoader "p"))).
Proof.
  destruct exampleRun as [res|] eqn:Hrun; [|by vm_compute in Hrun].
  exists res. split; [reflexivity|].
  apply (proj2 (combined_root exampleLoader exampleRepository 2 "p"
                  exampleHeap res Hrun)).
  discriminate.
Defined.

Lemma example_decreasing : decreasing exampleHeap exampleTree exampleRank.
Proof.
  intros term child Hd Hin Hdc.
  destruct term as [|[|[|[|[|[|[|term]]]]]]]; vm_compute in Hin;
    try (by destruct Hin); try discriminate Hd.
  - destruct Hin as [<- | [<- | []]]; simpl; lia.
  - destruct Hin as [<- | [<- | []]]; [discriminate Hdc | simpl; lia].
Defined.

Lemma run_returns_on_well_founded_index_witness :
  ∃ fuel res, ∀ fuel', fuel ≤ fuel' →
    getDataCollectorQuery exampleLoader exampleRepository fuel' "p" exampleHeap
    = Some res.
Proof.
  apply (run_returns_on_well_founded_index exampleLoader exampleRepository "p"
           exampleHeap exampleRank).
  apply example_decreasing.
Defined.

Lemma run_diverges_on_cycle_witness :
  getDataCollectorQuery exampleLoader cyclicRepository 100 "p" cyclicHeap = None.
Proof.
  apply (run_diverges_on_cycle exampleLoader cyclicRepository 100 "p"
           cyclicHeap 0 exampleAnswer exampleQuestion 1).
  - by left.
  - split; [reflexivity|]. split; [reflexivity|]. exists 1.
    split; [vm_compute; tauto | constructor].
  - split; [reflexivity|]. exists 0. split; [vm_compute; tauto|].
    split; [reflexivity|].
    apply (visits_child _ _ 0 1 1); [reflexivity | | reflexivity | constructor].
    vm_compute. tauto.
Defined.

Lemma root_loop_indexes_witness :
  ∃ ls, forEach [0]
          (rootStep 2 (questionMapOf exampleLoader "p")
             (answerMapOf exampleLoader "p") exampleTree)
          (mkLoopState (initialState exampleHeap) [] ∅) = Some ls ∧
        loop_groups ls = [0].
Proof.
  destruct (forEach [0] _ _) as [ls|] eqn:Hloop; [|by vm_compute in Hloop].
  exists ls. split; [reflexivity|].
  destruct (root_loop_indexes exampleHeap exampleTree
              (questionMapOf exampleLoader "p")
              (answerMapOf exampleLoader "p") 2 [0]
              (mkLoopState (initialState exampleHeap) [] ∅) ls
              (static_eq_refl exampleHeap) Hloop) as [_ ->].
  reflexivity.
Defined.

Lemma first_listing_agrees_witness :
  ∃ res, exampleRun = Some res ∧
         first_terms
           (getDataCollectorQuery_first exampleLoader exampleRepository "p"
              exampleHeap) = terms res.
Proof.
  destruct exampleRun as [res|] eqn:Hrun; [|by vm_compute in Hrun].
  exists res. split; [reflexivity|].
  by destruct (first_listing_agrees exampleLoader exampleRepository 2 "p"
                 exampleHeap res) as (_ & _ & Hagree);
    destruct (Hagree Hrun) as (_ & ? & _).
Defined.

End Cdc.
